(** * The urlparse processor of libbeat

    A shallow embedding of [libbeat/processors/urlparse/urlparse.go] and of
    the interfaces it is written against, followed by the properties of its
    execution contract: strict mode (roll back and report), best-effort mode
    (skip and continue), missing fields, and the shape of what is written.

    Go strings are byte strings; they are Rocq [string]s (lists of 8-bit
    [ascii]).  Go maps are finite maps with extensional equality, [gmap].
    A call that mutates its receiver and may fail ([PutValue], [parseField],
    [Run]) becomes a function returning the new state next to the error. *)

From Equations Require Import Equations.
From stdpp Require Import gmap strings list fin_maps.
From Stdlib Require Import ZArith NArith Ascii String.

Set Warnings "-register-all".
Local Open Scope string_scope.

(** ** Go's [strings] package, the part the program relies on *)

Module strings.

(** [s[i:]] *)
Definition from (s : string) (i : nat) : string :=
  String.substring i (String.length s - i) s.

(** [s[:i]] *)
Definition upto (s : string) (i : nat) : string :=
  String.substring 0 i s.

(** [strings.IndexByte(s, c)]; [None] stands for -1. *)
Fixpoint IndexByte (s : string) (c : ascii) : option nat :=
  match s with
  | EmptyString => None
  | String x s' =>
      if Ascii.eqb x c then Some 0
      else match IndexByte s' c with
           | Some i => Some (S i)
           | None => None
           end
  end.

(** [strings.LastIndexByte(s, c)] *)
Fixpoint LastIndexByte (s : string) (c : ascii) : option nat :=
  match s with
  | EmptyString => None
  | String x s' =>
      match LastIndexByte s' c with
      | Some i => Some (S i)
      | None => if Ascii.eqb x c then Some 0 else None
      end
  end.

(** [strings.Index(s, substr)] *)
Definition Index (s substr : string) : option nat := String.index 0 substr s.

(** [strings.Contains(s, substr)] *)
Definition Contains (s substr : string) : bool :=
  match Index s substr with Some _ => true | None => false end.

(** [strings.HasPrefix(s, prefix)] *)
Definition HasPrefix (s prefix : string) : bool := String.prefix prefix s.

(** [strings.HasSuffix(s, suffix)] *)
Definition HasSuffix (s suffix : string) : bool :=
  Nat.leb (String.length suffix) (String.length s) &&
  String.eqb (from s (String.length s - String.length suffix)) suffix.

(** [strings.Count(s, c)] for a one-byte [c] *)
Fixpoint CountByte (s : string) (c : ascii) : nat :=
  match s with
  | EmptyString => 0
  | String x s' => (if Ascii.eqb x c then 1 else 0) + CountByte s' c
  end.

Definition between (lo hi c : ascii) : bool :=
  (N_of_ascii lo <=? N_of_ascii c)%N && (N_of_ascii c <=? N_of_ascii hi)%N.

Definition oneof (c : ascii) (cs : list ascii) : bool :=
  existsb (Ascii.eqb c) cs.

(** [strings.ToLower] on the bytes of a URL scheme, which are ASCII
    letters, digits, [+], [-] and [.] only. *)
Definition lower (c : ascii) : ascii :=
  if between "A" "Z" c then ascii_of_N (N_of_ascii c + 32) else c.

Fixpoint ToLower (s : string) : string :=
  match s with
  | EmptyString => EmptyString
  | String c s' => String (lower c) (ToLower s')
  end.

End strings.

(** ** Go's [net/url]: [url.Parse], [URL.Hostname] and [URL.Port]

    The source parses with Go's standard library, which is not part of
    the repository.  The module follows net/url function by function;
    [Parse], [Hostname] and [Port] are what the processor calls. *)

Module url.

Import strings.

Inductive encoding :=
| encodePath
| encodePathSegment
| encodeHost
| encodeZone
| encodeUserPassword
| encodeQueryComponent
| encodeFragment.

Definition encoding_eqb (a b : encoding) : bool :=
  match a, b with
  | encodePath, encodePath
  | encodePathSegment, encodePathSegment
  | encodeHost, encodeHost
  | encodeZone, encodeZone
  | encodeUserPassword, encodeUserPassword
  | encodeQueryComponent, encodeQueryComponent
  | encodeFragment, encodeFragment => true
  | _, _ => false
  end.

Record Userinfo := {
  username : string;
  password : string;
  passwordSet : bool
}.

Record URL := {
  Scheme : string;
  Opaque : string;
  User : option Userinfo;
  Host : string;
  Path : string;
  RawPath : string;
  ForceQuery : bool;
  RawQuery : string;
  Fragment : string;
  RawFragment : string
}.

(** The errors [Parse] can wrap. *)
Inductive parseError :=
| EscapeError (s : string)          (* invalid URL escape %q *)
| InvalidHostError (s : string)     (* invalid character %q in host name *)
| invalidPort (colonPort : string)  (* invalid port %q after host *)
| errorString (text : string).      (* errors.New(text) *)

(** [url.Error{Op, URL, Err}] *)
Record Error := {
  Op : string;
  Error_URL : string;
  Err : parseError
}.

Definition new_URL : URL :=
  {| Scheme := ""; Opaque := ""; User := None; Host := ""; Path := "";
     RawPath := ""; ForceQuery := false; RawQuery := ""; Fragment := "";
     RawFragment := "" |}.

Definition ishex (c : ascii) : bool :=
  between "0" "9" c || between "a" "f" c || between "A" "F" c.

Definition unhex (c : ascii) : N :=
  if between "0" "9" c then N_of_ascii c - N_of_ascii "0"
  else if between "a" "f" c then N_of_ascii c - N_of_ascii "a" + 10
  else if between "A" "F" c then N_of_ascii c - N_of_ascii "A" + 10
  else 0.

(** [unhex(a)<<4 | unhex(b)] *)
Definition hexbyte (a b : ascii) : ascii :=
  ascii_of_N (N.lor (N.shiftl (unhex a) 4) (unhex b)).

Definition shouldEscape (c : ascii) (mode : encoding) : bool :=
  if between "a" "z" c || between "A" "Z" c || between "0" "9" c then false
  else if (encoding_eqb mode encodeHost || encoding_eqb mode encodeZone) &&
          oneof c ["!"; "$"; "&"; "'"; "("; ")"; "*"; "+"; ","; ";"; "=";
                   ":"; "["; "]"; "<"; ">"; "034"]%char
  then false
  else if oneof c ["-"; "_"; "."; "~"]%char then false
  else if oneof c ["$"; "&"; "+"; ","; "/"; ":"; ";"; "="; "?"; "@"]%char then
    match mode with
    | encodePath => Ascii.eqb c "?"
    | encodePathSegment => oneof c ["/"; ";"; ","; "?"]%char
    | encodeUserPassword => oneof c ["@"; "/"; "?"; ":"]%char
    | encodeQueryComponent => true
    | encodeFragment => false
    | encodeHost | encodeZone => true (* no case applies: the final return *)
    end
  else if encoding_eqb mode encodeFragment && oneof c ["!"; "("; ")"; "*"]%char
  then false
  else true.

(** The first loop of [unescape]: count the escapes, check that they are
    well formed.  [s] is the part of the input not yet read, [s[i:]]. *)
Fixpoint unescape_scan (s : string) (mode : encoding) (n : nat) (hasPlus : bool)
  : parseError + nat * bool :=
  match s with
  | EmptyString => inr (n, hasPlus)
  | String c rest =>
      if Ascii.eqb c "%" then
        match rest with
        | String a (String b rest') =>
            if negb (ishex a) || negb (ishex b) then inl (EscapeError (upto s 3))
            else if encoding_eqb mode encodeHost && (unhex a <? 8)%N &&
                    negb (String.eqb (upto s 3) "%25")
            then inl (EscapeError (upto s 3))
            else if encoding_eqb mode encodeZone &&
                    negb (String.eqb (upto s 3) "%25") &&
                    negb (Ascii.eqb (hexbyte a b) " ") &&
                    shouldEscape (hexbyte a b) encodeHost
            then inl (EscapeError (upto s 3))
            else unescape_scan rest' mode (S n) hasPlus
        | _ => inl (EscapeError (upto s 3))
        end
      else if Ascii.eqb c "+" then
        unescape_scan rest mode n (encoding_eqb mode encodeQueryComponent)
      else if (encoding_eqb mode encodeHost || encoding_eqb mode encodeZone) &&
              (N_of_ascii c <? 128)%N && shouldEscape c encodeHost
      then inl (InvalidHostError (String c EmptyString))
      else unescape_scan rest mode n hasPlus
  end.

(** The second loop of [unescape]: decode. *)
Fixpoint unescape_build (s : string) (mode : encoding) : string :=
  match s with
  | EmptyString => EmptyString
  | String c rest =>
      if Ascii.eqb c "%" then
        match rest with
        | String a (String b rest') =>
            String (hexbyte a b) (unescape_build rest' mode)
        | _ => EmptyString
        end
      else if Ascii.eqb c "+" then
        String (if encoding_eqb mode encodeQueryComponent then " "%char else "+"%char)
               (unescape_build rest mode)
      else String c (unescape_build rest mode)
  end.

Definition unescape (s : string) (mode : encoding) : parseError + string :=
  match unescape_scan s mode 0 false with
  | inl e => inl e
  | inr (n, hasPlus) =>
      if (n =? 0)%nat && negb hasPlus then inr s
      else inr (unescape_build s mode)
  end.

Definition hexdigit (n : N) : ascii :=
  match String.get (N.to_nat n) "0123456789ABCDEF" with
  | Some c => c
  | None => "0"%char
  end.

(** The first loop of [escape]: how many bytes need [+] and how many [%XX]. *)
Fixpoint escape_count (s : string) (mode : encoding) : nat * nat :=
  match s with
  | EmptyString => (0, 0)%nat
  | String c rest =>
      let '(spaceCount, hexCount) := escape_count rest mode in
      if shouldEscape c mode then
        if Ascii.eqb c " " && encoding_eqb mode encodeQueryComponent
        then (S spaceCount, hexCount)
        else (spaceCount, S hexCount)
      else (spaceCount, hexCount)
  end.

Fixpoint escape_build (s : string) (mode : encoding) : string :=
  match s with
  | EmptyString => EmptyString
  | String c rest =>
      if Ascii.eqb c " " && encoding_eqb mode encodeQueryComponent then
        String "+" (escape_build rest mode)
      else if shouldEscape c mode then
        String "%" (String (hexdigit (N.shiftr (N_of_ascii c) 4))
                      (String (hexdigit (N.land (N_of_ascii c) 15))
                         (escape_build rest mode)))
      else String c (escape_build rest mode)
  end.

Definition escape (s : string) (mode : encoding) : string :=
  match escape_count s mode with
  | (O, O) => s
  | _ => escape_build s mode
  end.

(** The loop of [getScheme]; [i] is the index of the first byte of [s] in
    [rawURL]. *)
Fixpoint getScheme_loop (rawURL : string) (i : nat) (s : string)
  : parseError + string * string :=
  match s with
  | EmptyString => inr ("", rawURL)
  | String c s' =>
      if between "a" "z" c || between "A" "Z" c then
        getScheme_loop rawURL (S i) s'
      else if between "0" "9" c || oneof c ["+"; "-"; "."]%char then
        if (i =? 0)%nat then inr ("", rawURL)
        else getScheme_loop rawURL (S i) s'
      else if Ascii.eqb c ":" then
        if (i =? 0)%nat then inl (errorString "missing protocol scheme")
        else inr (upto rawURL i, from rawURL (S i))
      else inr ("", rawURL)
  end.

Definition getScheme (rawURL : string) : parseError + string * string :=
  getScheme_loop rawURL 0 rawURL.

(** [split(s, sep, cutc)] *)
Definition split (s : string) (sep : ascii) (cutc : bool) : string * string :=
  match IndexByte s sep with
  | None => (s, "")
  | Some i => if cutc then (upto s i, from s (S i)) else (upto s i, from s i)
  end.

Fixpoint all_digits (s : string) : bool :=
  match s with
  | EmptyString => true
  | String b s' => between "0" "9" b && all_digits s'
  end.

Definition validOptionalPort (port : string) : bool :=
  match port with
  | EmptyString => true
  | String c digits => Ascii.eqb c ":" && all_digits digits
  end.

Fixpoint validUserinfo (s : string) : bool :=
  match s with
  | EmptyString => true
  | String r s' =>
      (between "A" "Z" r || between "a" "z" r || between "0" "9" r ||
       oneof r ["-"; "."; "_"; ":"; "~"; "!"; "$"; "&"; "'"; "("; ")"; "*";
                "+"; ","; ";"; "="; "%"; "@"]%char)
      && validUserinfo s'
  end.

Fixpoint stringContainsCTLByte (s : string) : bool :=
  match s with
  | EmptyString => false
  | String b s' =>
      (N_of_ascii b <? 32)%N || (N_of_ascii b =? 127)%N || stringContainsCTLByte s'
  end.

Definition parseHost (host : string) : parseError + string :=
  let plain :=
    match unescape host encodeHost with
    | inl e => inl e
    | inr h => inr h
    end in
  if HasPrefix host "[" then
    match LastIndexByte host "]" with
    | None => inl (errorString "missing ']' in host")
    | Some i =>
        let colonPort := from host (S i) in
        if negb (validOptionalPort colonPort) then inl (invalidPort colonPort)
        else
          match Index (upto host i) "%25" with
          | Some zone =>
              match unescape (upto host zone) encodeHost with
              | inl e => inl e
              | inr host1 =>
                  match unescape (String.substring zone (i - zone) host) encodeZone with
                  | inl e => inl e
                  | inr host2 =>
                      match unescape (from host i) encodeHost with
                      | inl e => inl e
                      | inr host3 => inr (host1 ++ host2 ++ host3)
                      end
                  end
              end
          | None => plain
          end
    end
  else
    match LastIndexByte host ":" with
    | Some i =>
        let colonPort := from host i in
        if negb (validOptionalPort colonPort) then inl (invalidPort colonPort)
        else plain
    | None => plain
    end.

Definition parseAuthority (authority : string)
  : parseError + option Userinfo * string :=
  let i := LastIndexByte authority "@" in
  match parseHost (match i with
                   | None => authority
                   | Some i => from authority (S i)
                   end) with
  | inl e => inl e
  | inr host =>
      match i with
      | None => inr (None, host)
      | Some i =>
          let userinfo := upto authority i in
          if negb (validUserinfo userinfo) then
            inl (errorString "net/url: invalid userinfo")
          else if negb (Contains userinfo ":") then
            match unescape userinfo encodeUserPassword with
            | inl e => inl e
            | inr userinfo =>
                inr (Some {| username := userinfo; password := "";
                             passwordSet := false |}, host)
            end
          else
            let '(username, password) := split userinfo ":" true in
            match unescape username encodeUserPassword with
            | inl e => inl e
            | inr username =>
                match unescape password encodeUserPassword with
                | inl e => inl e
                | inr password =>
                    inr (Some {| username := username; password := password;
                                 passwordSet := true |}, host)
                end
            end
      end
  end.

Definition setPath (u : URL) (p : string) : parseError + URL :=
  match unescape p encodePath with
  | inl e => inl e
  | inr path =>
      let escp := escape path encodePath in
      inr {| Scheme := Scheme u; Opaque := Opaque u; User := User u;
             Host := Host u; Path := path;
             RawPath := if String.eqb p escp then "" else p;
             ForceQuery := ForceQuery u; RawQuery := RawQuery u;
             Fragment := Fragment u; RawFragment := RawFragment u |}
  end.

Definition setFragment (u : URL) (f : string) : parseError + URL :=
  match unescape f encodeFragment with
  | inl e => inl e
  | inr frag =>
      let escf := escape frag encodeFragment in
      inr {| Scheme := Scheme u; Opaque := Opaque u; User := User u;
             Host := Host u; Path := Path u; RawPath := RawPath u;
             ForceQuery := ForceQuery u; RawQuery := RawQuery u;
             Fragment := frag;
             RawFragment := if String.eqb f escf then "" else f |}
  end.

Definition lt_index (a b : option nat) : bool :=
  match a, b with
  | Some i, Some j => (i <? j)%nat
  | _, _ => false
  end.

Definition parse (rawURL : string) (viaRequest : bool) : parseError + URL :=
  if stringContainsCTLByte rawURL then
    inl (errorString "net/url: invalid control character in URL")
  else if String.eqb rawURL "" && viaRequest then
    inl (errorString "empty url")
  else if String.eqb rawURL "*" then
    inr {| Scheme := ""; Opaque := ""; User := None; Host := ""; Path := "*";
           RawPath := ""; ForceQuery := false; RawQuery := ""; Fragment := "";
           RawFragment := "" |}
  else
    match getScheme rawURL with
    | inl e => inl e
    | inr (scheme, rest) =>
        let scheme := ToLower scheme in
        let '(rest, forceQuery, rawQuery) :=
          if HasSuffix rest "?" && (CountByte rest "?" =? 1)%nat
          then (upto rest (String.length rest - 1), true, "")
          else let '(r, q) := split rest "?" true in (r, false, q) in
        let withQuery (opaque : string) : URL :=
          {| Scheme := scheme; Opaque := opaque; User := None; Host := "";
             Path := ""; RawPath := ""; ForceQuery := forceQuery;
             RawQuery := rawQuery; Fragment := ""; RawFragment := "" |} in
        let continue (_ : unit) : parseError + URL :=
          if (negb (String.eqb scheme "") ||
              negb viaRequest && negb (HasPrefix rest "///")) &&
             HasPrefix rest "//"
          then
            let '(authority, rest) := split (from rest 2) "/" false in
            match parseAuthority authority with
            | inl e => inl e
            | inr (user, host) =>
                setPath {| Scheme := scheme; Opaque := ""; User := user;
                           Host := host; Path := ""; RawPath := "";
                           ForceQuery := forceQuery; RawQuery := rawQuery;
                           Fragment := ""; RawFragment := "" |} rest
            end
          else setPath (withQuery "") rest in
        if negb (HasPrefix rest "/") then
          if negb (String.eqb scheme "") then inr (withQuery rest)
          else if viaRequest then inl (errorString "invalid URI for request")
          else
            let colon := IndexByte rest ":" in
            let slash := IndexByte rest "/" in
            if match colon with Some _ => true | None => false end &&
               (match slash with None => true | Some _ => false end ||
                lt_index colon slash)
            then inl (errorString "first path segment in URL cannot contain colon")
            else continue tt
        else continue tt
    end.

(** Modelled from the spec: the URL parser of section 4.2, step b, which
    is Go's [url.Parse], not under src/.  It decomposes a string into
    scheme, opaque part, host (with port), decoded path, raw path, raw
    query and fragment; a scheme is optional and most strings parse, only
    structurally invalid ones (broken percent-escapes, non-numeric ports
    and the like) are refused. *)
Definition Parse (rawURL : string) : Error + URL :=
  let '(u, frag) := split rawURL "#" true in
  match parse u false with
  | inl err => inl {| Op := "parse"; Error_URL := u; Err := err |}
  | inr url =>
      if String.eqb frag "" then inr url
      else match setFragment url frag with
           | inl err => inl {| Op := "parse"; Error_URL := rawURL; Err := err |}
           | inr url => inr url
           end
  end.

(** [splitHostPort]: host and port of [host:port]; the port must be
    numeric, and the brackets of an IPv6 literal are dropped. *)
Definition splitHostPort (hostport : string) : string * string :=
  let '(host, port) :=
    match LastIndexByte hostport ":" with
    | Some colon =>
        if validOptionalPort (from hostport colon)
        then (upto hostport colon, from hostport (S colon))
        else (hostport, "")
    | None => (hostport, "")
    end in
  if HasPrefix host "[" && HasSuffix host "]"
  then (String.substring 1 (String.length host - 2) host, port)
  else (host, port).

(** Modelled from the spec: the hostname component of section 4.2, step b
    (host without port), Go's [URL.Hostname], not under src/. *)
Definition Hostname (u : URL) : string := fst (splitHostPort (Host u)).

(** Modelled from the spec: the port component of section 4.2, step b
    (numeric string or empty), Go's [URL.Port], not under src/. *)
Definition Port (u : URL) : string := snd (splitHostPort (Host u)).

End url.

(** ** Event values and errors *)

(** Modelled from the spec: the values of event fields, which libbeat
    holds as [interface{}] and which are not under src/.  Section 3 has
    them be strings, numbers, nested mappings and so on; section 9 asks
    for a tagged union with a run-time check where a string is
    extracted.  To the processor a value is a string, a mapping, or
    something else. *)
Inductive value :=
| VString (s : string)
| VInt (z : Z)
| VBool (b : bool)
| VMap (m : gmap string value).

(** Go's [error] values that can reach the processor.  The constructors of
    the processor's own errors record the [fmt.Errorf] call that builds
    them. *)
Inductive error :=
| ErrKeyNotFound
    (* common.ErrKeyNotFound, "key not found" *)
| ErrExpectedMap (v : value)
    (* "expected map but type is %T" *)
| UrlError (e : url.Error)
    (* the *url.Error of url.Parse *)
| ErrFetch (from : string) (err : error)
    (* "could not fetch value for key: %s, Error: %v", from, err *)
| ErrInvalidType (v : value)
    (* "invalid type for `from`, expecting a string received %T", value *)
| ErrURLParse (parsedString : string) (err : error)
    (* "error trying to URL-parse %s: %v", parsedString, err *)
| ErrPutValue (parseData : url.URL) (target : string) (err : error)
    (* "could not put value: %s: %v, %v", parseData, target, err *)
| ErrRun (err : error).
    (* "failed to parse fields in urlparse processor: %v", err *)

Module errors.

(** [errors.Cause]: none of the errors above implements [Cause()], so each
    is its own cause. *)
Definition Cause (err : error) : error := err.

End errors.

(** [err == common.ErrKeyNotFound]: identity with the sentinel. *)
Definition is_ErrKeyNotFound (err : error) : bool :=
  match err with
  | ErrKeyNotFound => true
  | _ => false
  end.

Definition inspect {A : Type} (x : A) : {y : A | x = y} := exist _ x eq_refl.

(** ** [common.MapStr]

    The field mapping of an event, keyed by dotted paths, with nested
    mappings as values.  libbeat/common is not under src/.  A dotted key
    is resolved level by level: at each level the whole remaining key is
    tried as a literal key first, and otherwise the part before its first
    dot names the nested mapping to descend into. *)

Module common.

Abbreviation MapStr := (gmap string value).

(** [key[:idx]] and [key[idx+1:]] for [idx] the first ['.'] of [key]. *)
Fixpoint cut (key : string) : option (string * string) :=
  match key with
  | EmptyString => None
  | String c s =>
      if Ascii.eqb c "." then Some (EmptyString, s)
      else match cut s with
           | Some (k, rest) => Some (String c k, rest)
           | None => None
           end
  end.

(** The rest of a key after its first dot is shorter than the key: the
    loops of [GetValue] and [Put] terminate. *)
Ltac cut_shorter :=
  match goal with
  | H : cut ?key = Some (?k, ?rest) |- _ =>
      clear - H; revert k rest H;
      induction key as [|c s IH]; simpl; intros k rest H; [discriminate|];
      destruct (Ascii.eqb c "."); [injection H as <- <-; lia|];
      destruct (cut s) as [[k' r']|]; [|discriminate];
      injection H as <- <-; specialize (IH _ _ eq_refl); lia
  end.

Definition toMapStr (v : value) : error + MapStr :=
  match v with
  | VMap m => inr m
  | _ => inl (ErrExpectedMap v)
  end.

(** Modelled from the spec: [get(path) -> value | NotFound] of section 6,
    libbeat's [MapStr.GetValue], not under src/.  A key that leads
    nowhere gives [ErrKeyNotFound]; a key that leads through a value that
    is not a mapping gives the error of that value. *)
Equations? GetValue (data : MapStr) (key : string) : error + value
  by wf (String.length key) lt :=
  GetValue data key with data !! key => {
    | Some v := inr v
    | None with inspect (cut key) => {
      | exist _ None _ := inl ErrKeyNotFound
      | exist _ (Some (k, rest)) Hcut with data !! k => {
        | None := inl ErrKeyNotFound
        | Some d with toMapStr d => {
          | inl err := inl err
          | inr v := GetValue v rest } } } }.
Proof. cut_shorter. Qed.

(** Modelled from the spec: [put(path, value) -> ok | error] of section
    6, libbeat's [MapStr.Put], not under src/.  The value at the key is
    overwritten, missing mappings on the way are created, and the write
    fails only when the key leads through a value that is not a mapping
    (section 4.2, step d).  The result is the mapping after the write, or
    the error that left it as it was. *)
Equations? Put (data : MapStr) (key : string) (val : value) : error + MapStr
  by wf (String.length key) lt :=
  Put data key val with data !! key => {
    | Some _ := inr (<[key := val]> data)
    | None with inspect (cut key) => {
      | exist _ None _ := inr (<[key := val]> data)
      | exist _ (Some (k, rest)) Hcut
          with match data !! k with
               | None => inr ∅
               | Some d => toMapStr d
               end => {
        | inl err := inl err
        | inr v with Put v rest val => {
          | inl err := inl err
          | inr v' := inr (<[k := VMap v']> data) } } } }.
Proof. cut_shorter. Qed.

(** The first segment of a dotted key: the key itself when it has no dot. *)
Definition root (key : string) : string :=
  match cut key with
  | Some (k, _) => k
  | None => key
  end.

(** The segments of a dotted key, which the dots separate. *)
Equations? segments (key : string) : list string
  by wf (String.length key) lt :=
  segments key with inspect (cut key) => {
    | exist _ None _ := [key]
    | exist _ (Some (k, rest)) Hcut := k :: segments rest }.
Proof. cut_shorter. Qed.

Fixpoint is_prefix (l1 l2 : list string) : bool :=
  match l1, l2 with
  | [], _ => true
  | _ :: _, [] => false
  | x :: l1', y :: l2' => String.eqb x y && is_prefix l1' l2'
  end.

(** Two keys overlap when one leads to the other: the segments of one
    are the first segments of the other. *)
Definition overlap (key key' : string) : bool :=
  is_prefix (segments key) (segments key') ||
  is_prefix (segments key') (segments key).

(** Two results of [Put] that fail with the same error or both succeed. *)
Definition same_outcome (r r' : error + MapStr) : Prop :=
  match r, r' with
  | inl e, inl e' => e = e'
  | inr _, inr _ => True
  | _, _ => False
  end.

(** Modelled from the spec: [clone() -> independent copy] of section 6,
    libbeat's [MapStr.Clone], not under src/; section 9 asks for a copy
    with value semantics.  Maps are values here, so the copy is the map
    itself and no later write to the original can reach it. *)
Definition Clone (m : MapStr) : MapStr := m.

End common.

(** ** [beat.Event] *)

Module beat.

(** Modelled from the spec: the event of section 3, libbeat's
    [beat.Event], not under src/: an event is its field mapping.  The
    timestamp and metadata that libbeat's event carries next to it, and
    the reserved keys that address them, are outside this model. *)
Record Event := { Fields : gmap string value }.

(** Modelled from the spec: [get] of section 6 on the event,
    [Event.GetValue], not under src/. *)
Definition GetValue (e : Event) (key : string) : error + value :=
  common.GetValue (Fields e) key.

(** Modelled from the spec: [put] of section 6 on the event,
    [Event.PutValue], not under src/: the event after the write, or the
    error. *)
Definition PutValue (e : Event) (key : string) (v : value) : error + Event :=
  match common.Put (Fields e) key v with
  | inl err => inl err
  | inr m => inr {| Fields := m |}
  end.

End beat.

(** ** The processor: [urlparse.go] *)

Record fromTo := {
  From : string;
  To : string
}.

Record urlParseConfig := {
  Fields : list fromTo;
  IgnoreMissing : bool;
  FailOnError : bool
}.

(** The processor owns its configuration and a logger; what it sends to the
    logger is returned by [Run] as a list of messages. *)
Record urlParse := { config : urlParseConfig }.

(** The mapping object written at the target path. *)
Definition components (parseData : url.URL) : gmap string value :=
  <["scheme" := VString (url.Scheme parseData)]>
  (<["opaque" := VString (url.Opaque parseData)]>
  (<["hostname" := VString (url.Hostname parseData)]>
  (<["port" := VString (url.Port parseData)]>
  (<["path" := VString (url.Path parseData)]>
  (<["raw_path" := VString (url.RawPath parseData)]>
  (<["raw_query" := VString (url.RawQuery parseData)]>
  (<["fragment" := VString (url.Fragment parseData)]> ∅))))))).

Definition parseField (p : urlParse) (from to : string) (event : beat.Event)
  : beat.Event * option error :=
  match beat.GetValue event from with
  | inl err =>
      if IgnoreMissing (config p) && is_ErrKeyNotFound (errors.Cause err)
      then (event, None)
      else (event, Some (ErrFetch from err))
  | inr (VString parsedString) =>
      match url.Parse parsedString with
      | inl err => (event, Some (ErrURLParse parsedString (UrlError err)))
      | inr parseData =>
          let target := if String.eqb to "" then from else to in
          match beat.PutValue event target (VMap (components parseData)) with
          | inl err => (event, Some (ErrPutValue parseData target err))
          | inr event' => (event', None)
          end
      end
  | inr value => (event, Some (ErrInvalidType value))
  end.

Section Run.

(** [err.Error()]: the text Go's [fmt] renders for an error.  The
    processor stores and logs this text and never inspects it. *)
Variable Error_text : error -> string.

(** The loop of [Run] over the remaining field mappings, with the log
    written so far. *)
Fixpoint Run_loop (p : urlParse) (backup : gmap string value)
    (fields : list fromTo) (event : beat.Event) (log : list string)
  : beat.Event * option error * list string :=
  match fields with
  | [] => (event, None, log)
  | field :: fields' =>
      match parseField p (From field) (To field) event with
      | (event, Some err) =>
          let errMsg := ErrRun err in
          let log := (log ++ [Error_text errMsg])%list in
          if FailOnError (config p) then
            let event := {| beat.Fields := backup |} in
            let event :=
              match beat.PutValue event "error.message" (VString (Error_text errMsg)) with
              | inr event' => event'
              | inl _ => event
              end in
            (event, Some err, log)
          else Run_loop p backup fields' event log
      | (event, None) => Run_loop p backup fields' event log
      end
  end.

Definition Run (p : urlParse) (event : beat.Event)
  : beat.Event * option error * list string :=
  let backup :=
    if FailOnError (config p) then common.Clone (beat.Fields event)
    else ∅ in
  Run_loop p backup (Fields (config p)) event [].

End Run.


(** ** Construction *)

(** Modelled from the spec: the raw configuration of section 4.1,
    libbeat's [common.Config], not under src/: a tree of options. *)
Inductive raw :=
| CString (s : string)
| CBool (b : bool)
| CInt (z : Z)
| CList (l : list raw)
| CDict (d : gmap string raw).

Inductive ConfigurationError :=
| ErrRequired (name : string)
    (* a key tagged validate:"required" is absent *)
| ErrEmpty (name : string)
    (* a key tagged validate:"required" holds an empty string or list *)
| ErrType (name : string)
    (* a key holds a value its struct field cannot take *)
| ErrMissingOption (name : string)
    (* checks.RequireFields: "missing %v option" *)
| ErrUnexpectedOption (name : string)
    (* checks.AllowedFields: "unexpected %v option" *)
| ErrUnpack (err : ConfigurationError).
    (* "failed to unpack the configuration of urlparse processor: %s", err *)

Module ucfg.

(** A string field; [current] is what the struct holds before. *)
Definition unpack_string (c : gmap string raw) (name : string)
    (required : bool) (current : string) : ConfigurationError + string :=
  match c !! name with
  | None => if required then inl (ErrRequired name) else inr current
  | Some (CString s) =>
      if required && String.eqb s "" then inl (ErrEmpty name) else inr s
  | Some _ => inl (ErrType name)
  end.

(** A boolean field. *)
Definition unpack_bool (c : gmap string raw) (name : string) (current : bool)
  : ConfigurationError + bool :=
  match c !! name with
  | None => inr current
  | Some (CBool b) => inr b
  | Some _ => inl (ErrType name)
  end.

(** [fromTo]: from is [config:"from" validate:"required"], to is
    [config:"to"]. *)
Definition unpack_fromTo (entry : raw) : ConfigurationError + fromTo :=
  match entry with
  | CDict d =>
      match unpack_string d "from" true "" with
      | inl err => inl err
      | inr from =>
          match unpack_string d "to" false "" with
          | inl err => inl err
          | inr to => inr {| From := from; To := to |}
          end
      end
  | _ => inl (ErrType "fields")
  end.

Fixpoint unpack_entries (l : list raw) : ConfigurationError + list fromTo :=
  match l with
  | [] => inr []
  | entry :: l' =>
      match unpack_fromTo entry with
      | inl err => inl err
      | inr f =>
          match unpack_entries l' with
          | inl err => inl err
          | inr fs => inr (f :: fs)
          end
      end
  end.

(** Modelled from the spec: the validation of section 4.1,
    [c.Unpack(&config)], not under src/, as the [config] and [validate]
    tags of [urlParseConfig] and [fromTo] drive it: [fields] is required
    and is a non-empty sequence of entries with a required string [from]
    and an optional string [to]; [ignore_missing] and [fail_on_error] are
    optional booleans and keep the value the struct holds when their key
    is absent.  Keys that no tag names are not looked at. *)
Definition Unpack (c : gmap string raw) (config : urlParseConfig)
  : ConfigurationError + urlParseConfig :=
  match c !! "fields" with
  | None => inl (ErrRequired "fields")
  | Some (CList []) => inl (ErrEmpty "fields")
  | Some (CList l) =>
      match unpack_entries l with
      | inl err => inl err
      | inr fields =>
          match unpack_bool c "ignore_missing" (IgnoreMissing config) with
          | inl err => inl err
          | inr ignore_missing =>
              match unpack_bool c "fail_on_error" (FailOnError config) with
              | inl err => inl err
              | inr fail_on_error =>
                  inr {| Fields := fields; IgnoreMissing := ignore_missing;
                         FailOnError := fail_on_error |}
              end
          end
      end
  | Some _ => inl (ErrType "fields")
  end.

End ucfg.

Module checks.

Definition validator := gmap string raw -> option ConfigurationError.

(** [cfg.GetFields()] *)
Definition GetFields (cfg : gmap string raw) : list string :=
  map fst (map_to_list cfg).

(** Modelled from the spec: [fields] is a required option (section 4.1);
    [checks.RequireFields], not under src/. *)
Definition RequireFields (fields : list string) : validator :=
  fun cfg =>
    match List.find (fun field => negb (bool_decide (is_Some (cfg !! field)))) fields with
    | Some field => Some (ErrMissingOption field)
    | None => None
    end.

(** Modelled from the spec: the strict schema of section 4.1, no key
    outside the recognized set; [checks.AllowedFields], not under src/. *)
Definition AllowedFields (fields : list string) : validator :=
  fun cfg =>
    match List.find (fun field => negb (existsb (String.eqb field) fields))
                    (GetFields cfg) with
    | Some field => Some (ErrUnexpectedOption field)
    | None => None
    end.

Fixpoint checkAll (checks : list validator) : validator :=
  fun cfg =>
    match checks with
    | [] => None
    | check :: checks' =>
        match check cfg with
        | Some err => Some err
        | None => checkAll checks' cfg
        end
    end.

(** Modelled from the spec: construction fails when a check fails
    (section 4.1); [checks.ConfigChecked], not under src/. *)
Definition ConfigChecked {P : Type}
    (constr : gmap string raw -> ConfigurationError + P)
    (checks : list validator) : gmap string raw -> ConfigurationError + P :=
  fun cfg =>
    match checkAll checks cfg with
    | Some err => inl err
    | None => constr cfg
    end.

End checks.

(** [New] (urlparse.go, lines 58 to 73) *)
Definition New (c : gmap string raw) : ConfigurationError + urlParse :=
  let config := {| Fields := []; IgnoreMissing := false; FailOnError := true |} in
  match ucfg.Unpack c config with
  | inl err => inl (ErrUnpack err)
  | inr config => inr {| config := config |}
  end.

(** The constructor [init] registers under the name urlparse: [New]
    behind its checks. *)
Definition urlparse_plugin : gmap string raw -> ConfigurationError + urlParse :=
  checks.ConfigChecked New
    [ checks.RequireFields ["fields"];
      checks.AllowedFields ["fields"; "ignore_missing"; "fail_on_error"] ].

(** An entry of [fields] without [from]. *)
Definition lacks_from (entry : raw) : Prop :=
  forall d, entry = CDict d -> d !! "from" = None.

(** ** Vocabulary of the statements *)

(** The path a mapping writes to: [to], or [from] when [to] is empty
    (urlparse.go, lines 116 to 119). *)
Definition target (f : fromTo) : string :=
  if String.eqb (To f) "" then From f else To f.

(** The event and the error [Run] hands back. *)
Definition event_of (r : beat.Event * option error * list string) : beat.Event :=
  fst (fst r).

Definition error_of (r : beat.Event * option error * list string) : option error :=
  snd (fst r).

(** The event after a list of mappings, when every one of them returns no
    error; [None] as soon as one returns an error. *)
Fixpoint succeed_all (p : urlParse) (fields : list fromTo) (event : beat.Event)
  : option beat.Event :=
  match fields with
  | [] => Some event
  | f :: fields' =>
      match parseField p (From f) (To f) event with
      | (event', None) => succeed_all p fields' event'
      | (_, Some _) => None
      end
  end.

(** One mapping in best-effort mode: its write when it succeeds. *)
Definition apply_field (p : urlParse) (event : beat.Event) (f : fromTo) : beat.Event :=
  fst (parseField p (From f) (To f) event).

(** The errors the mappings of a list return, in order, each mapping being
    applied to the event its predecessors left. *)
Fixpoint errors_of (p : urlParse) (fields : list fromTo) (event : beat.Event)
  : list error :=
  match fields with
  | [] => []
  | f :: fields' =>
      match parseField p (From f) (To f) event with
      | (event', Some err) => err :: errors_of p fields' event'
      | (event', None) => errors_of p fields' event'
      end
  end.

(** The fields of an event after [PutValue("error.message", msg)], the
    result of which [Run] does not look at. *)
Definition attach_error_message (m : gmap string value) (msg : string)
  : gmap string value :=
  match common.Put m "error.message" (VString msg) with
  | inr m' => m'
  | inl _ => m
  end.

(** The eight keys of the mapping written at the target path. *)
Definition component_keys : gset string :=
  {[ "scheme"; "opaque"; "hostname"; "port"; "path"; "raw_path";
     "raw_query"; "fragment" ]}.

(** The mapping written for the URL that is the empty string. *)
Definition empty_components : gmap string value :=
  <["scheme" := VString ""]>
  (<["opaque" := VString ""]>
  (<["hostname" := VString ""]>
  (<["port" := VString ""]>
  (<["path" := VString ""]>
  (<["raw_path" := VString ""]>
  (<["raw_query" := VString ""]>
  (<["fragment" := VString ""]> ∅))))))).

(** The URL a mapping finds in an event: what [from] holds, when that is
    a string and the string parses. *)
Definition url_at (event : beat.Event) (f : fromTo) : option url.URL :=
  match beat.GetValue event (From f) with
  | inr (VString s) =>
      match url.Parse s with
      | inr u => Some u
      | inl _ => None
      end
  | _ => None
  end.

(** Whether a write at [key] succeeds; the value written plays no part. *)
Definition writable (m : gmap string value) (key : string) : bool :=
  match common.Put m key (VMap ∅) with
  | inr _ => true
  | inl _ => false
  end.

(** Two paths that are the same path or do not overlap: neither leads
    into the other. *)
Definition same_or_apart (key key' : string) : bool :=
  String.eqb key key' || negb (common.overlap key key').

(** The target of no mapping overlaps a path that a later mapping reads,
    and the targets of two mappings are the same path or do not overlap. *)
Fixpoint separated (fields : list fromTo) : bool :=
  match fields with
  | [] => true
  | f :: rest =>
      forallb (fun g => negb (common.overlap (target f) (From g)) &&
                        same_or_apart (target f) (target g)) rest
      && separated rest
  end.

(** The last mapping of a list that writes at [key]. *)
Fixpoint writer (fields : list fromTo) (key : string) : option fromTo :=
  match fields with
  | [] => None
  | f :: rest =>
      match writer rest key with
      | Some g => Some g
      | None => if String.eqb (target f) key then Some f else None
      end
  end.

(** The target of no mapping overlaps the path it reads or a path an
    earlier mapping reads, and the targets of two mappings are the same
    path or do not overlap. *)
Fixpoint independent (fields : list fromTo) : bool :=
  match fields with
  | [] => true
  | f :: rest =>
      negb (common.overlap (target f) (From f)) &&
      forallb (fun g => negb (common.overlap (target g) (From f)) &&
                        same_or_apart (target f) (target g)) rest
      && independent rest
  end.

(** A write that is tried and, when it fails, leaves the event as it
    was: what a mapping does with the components it has. *)
Definition try_put (event : beat.Event) (w : string * value) : beat.Event :=
  match common.Put (beat.Fields event) (fst w) (snd w) with
  | inr m => {| beat.Fields := m |}
  | inl _ => event
  end.

(** The writes the mappings of a list try, in order, each mapping reading
    the event its predecessors left. *)
Fixpoint writes (p : urlParse) (fields : list fromTo) (event : beat.Event)
  : list (string * value) :=
  match fields with
  | [] => []
  | f :: rest =>
      match url_at event f with
      | Some u =>
          (target f, VMap (components u))
          :: writes p rest (apply_field p event f)
      | None => writes p rest (apply_field p event f)
      end
  end.

(** A rendering of errors to run the examples with.  [Run] is stated for
    every rendering; this one writes the messages of the source and
    prints the operands of Go's %T, %q and %s verbs in a plain way. *)
Definition type_name (v : value) : string :=
  match v with
  | VString _ => "string"
  | VInt _ => "int"
  | VBool _ => "bool"
  | VMap _ => "common.MapStr"
  end.

Definition quoted (s : string) : string :=
  String "034" (s ++ String "034" EmptyString).

Definition parseError_text (e : url.parseError) : string :=
  match e with
  | url.EscapeError s => "invalid URL escape " ++ quoted s
  | url.InvalidHostError s => "invalid character " ++ quoted s ++ " in host name"
  | url.invalidPort s => "invalid port " ++ quoted s ++ " after host"
  | url.errorString text => text
  end.

Fixpoint sample_text (e : error) : string :=
  match e with
  | ErrKeyNotFound => "key not found"
  | ErrExpectedMap v => "expected map but type is " ++ type_name v
  | UrlError e =>
      url.Op e ++ " " ++ quoted (url.Error_URL e) ++ ": " ++ parseError_text (url.Err e)
  | ErrFetch from err =>
      "could not fetch value for key: " ++ from ++ ", Error: " ++ sample_text err
  | ErrInvalidType v =>
      "invalid type for `from`, expecting a string received " ++ type_name v
  | ErrURLParse parsedString err =>
      "error trying to URL-parse " ++ parsedString ++ ": " ++ sample_text err
  | ErrPutValue parseData target err =>
      "could not put value: " ++ url.Scheme parseData ++ "://" ++ url.Host parseData
        ++ url.Path parseData ++ ": " ++ target ++ ", " ++ sample_text err
  | ErrRun err =>
      "failed to parse fields in urlparse processor: " ++ sample_text err
  end.

(** A processor from its three options. *)
Definition processor (fields : list fromTo) (ignore_missing fail_on_error : bool)
  : urlParse :=
  {| config := {| Fields := fields; IgnoreMissing := ignore_missing;
                  FailOnError := fail_on_error |} |}.

(** ** Events and processors of the examples *)

Definition mapping (from to : string) : fromTo := {| From := from; To := to |}.

(** [{request: "https://example.com:8443/a/b?x=1#frag"}] *)
Definition event_request : beat.Event :=
  {| beat.Fields :=
       {[ "request" := VString "https://example.com:8443/a/b?x=1#frag" ]} |}.

(** [{a: "http://a.example/x", b: 42, c: "http://c.example/"}] *)
Definition event_abc : beat.Event :=
  {| beat.Fields :=
       <["a" := VString "http://a.example/x"]>
       (<["b" := VInt 42]>
       (<["c" := VString "http://c.example/"]> ∅)) |}.

(** [{request: ""}] *)
Definition event_empty_request : beat.Event :=
  {| beat.Fields := {[ "request" := VString "" ]} |}.

(** [{a: "x"}] *)
Definition event_a_scalar : beat.Event :=
  {| beat.Fields := {[ "a" := VString "x" ]} |}.

(** The configuration [{fields: [{from: "request"}]}]. *)
Definition raw_minimal : gmap string raw :=
  {[ "fields" := CList [CDict {[ "from" := CString "request" ]}] ]}.

(** The same with one more key, [target]. *)
Definition raw_extra_key : gmap string raw :=
  <["target" := CString "url"]> raw_minimal.

(** ** The description of a processor *)

Module urlparse.

(** What [fmt.Sprintf("%+v", f)] prints for a [fromTo]: the field names
    and the two strings as they are. *)
Definition Sprint_fromTo (f : fromTo) : string :=
  "{From:" ++ From f ++ " To:" ++ To f ++ "}".

(** The elements of a slice as [%+v] prints them, a space between two. *)
Fixpoint Sprint_elements (fields : list fromTo) : string :=
  match fields with
  | [] => ""
  | [f] => Sprint_fromTo f
  | f :: fields' => Sprint_fromTo f ++ " " ++ Sprint_elements fields'
  end.

(** [fmt.Sprintf("%+v", fields)] for a slice of [fromTo]. *)
Definition Sprint_fields (fields : list fromTo) : string :=
  "[" ++ Sprint_elements fields ++ "]".

(** [String] (urlparse.go, lines 137 to 139) *)
Definition String (p : urlParse) : string :=
  "urlparse=" ++ Sprint_fields (Fields (config p)).

End urlparse.

(** ** More vocabulary *)

(** A string without the byte [c]. *)
Fixpoint lacks (c : ascii) (s : string) : bool :=
  match s with
  | EmptyString => true
  | String x s' => negb (Ascii.eqb x c) && lacks c s'
  end.

(** A mapping whose paths have no space and no closing brace. *)
Definition plain_paths (f : fromTo) : bool :=
  lacks " " (From f) && lacks "}" (From f) && lacks " " (To f) && lacks "}" (To f).

(** The configuration with every [to] written out: the target of each
    mapping in the place of its [to]. *)
Definition resolved (p : urlParse) : urlParse :=
  processor (map (fun f => mapping (From f) (target f)) (Fields (config p)))
            (IgnoreMissing (config p)) (FailOnError (config p)).

(** Two mappings neither of which writes where the other reads or
    writes. *)
Definition unrelated (f g : fromTo) : bool :=
  negb (common.overlap (target f) (From g)) &&
  negb (common.overlap (target g) (From f)) &&
  negb (common.overlap (target f) (target g)).

Fixpoint pairwise_unrelated (fields : list fromTo) : bool :=
  match fields with
  | [] => true
  | f :: rest => forallb (unrelated f) rest && pairwise_unrelated rest
  end.

(** The raw configuration that spells out a processor configuration. *)
Definition raw_of_fromTo (f : fromTo) : raw :=
  CDict (<["from" := CString (From f)]> (<["to" := CString (To f)]> ∅)).

Definition raw_of (c : urlParseConfig) : gmap string raw :=
  <["fields" := CList (map raw_of_fromTo (Fields c))]>
  (<["ignore_missing" := CBool (IgnoreMissing c)]>
  (<["fail_on_error" := CBool (FailOnError c)]> ∅)).

(** A configuration [New] can return: some mapping, and no empty [from]. *)
Definition well_formed (c : urlParseConfig) : Prop :=
  Fields c <> [] /\ forall f, In f (Fields c) -> From f <> "".


(** What [url.Parse] makes of [https://example.com:8443/a/b?x=1#frag],
    the string [event_request] holds at [request]. *)
Definition url_request : url.URL :=
  {| url.Scheme := "https"; url.Opaque := ""; url.User := None;
     url.Host := "example.com:8443"; url.Path := "/a/b"; url.RawPath := "";
     url.ForceQuery := false; url.RawQuery := "x=1"; url.Fragment := "frag";
     url.RawFragment := "" |}.

(** Three mappings that do not meet, for [event_abc]. *)
Definition mappings_abc : list fromTo :=
  [mapping "a" "x"; mapping "b" "y"; mapping "c" "z"].

(** [{b: 42, error: "boom"}]: [error] holds a string, so that nothing can
    be put at [error.message]. *)
Definition event_b_error : beat.Event :=
  {| beat.Fields := <["b" := VInt 42]> (<["error" := VString "boom"]> ∅) |}.

(** What [url.Parse] makes of [http://a.example/x], the string
    [event_abc] holds at [a], and of [http://c.example/], the string it
    holds at [c]. *)
Definition url_a : url.URL :=
  {| url.Scheme := "http"; url.Opaque := ""; url.User := None;
     url.Host := "a.example"; url.Path := "/x"; url.RawPath := "";
     url.ForceQuery := false; url.RawQuery := ""; url.Fragment := "";
     url.RawFragment := "" |}.

Definition url_c : url.URL :=
  {| url.Scheme := "http"; url.Opaque := ""; url.User := None;
     url.Host := "c.example"; url.Path := "/"; url.RawPath := "";
     url.ForceQuery := false; url.RawQuery := ""; url.Fragment := "";
     url.RawFragment := "" |}.

(** Three mappings for [event_abc], two of them with the same target. *)
Definition mappings_shared : list fromTo :=
  [mapping "a" "t"; mapping "c" "t"; mapping "a" "x.y"].
(** * Properties

    ** Dotted keys, reads and writes *)

Section MapStrFacts.
Import common.
Implicit Types (m data : gmap string value) (key k rest : string) (v val : value).

Lemma cut_length key k rest :
  cut key = Some (k, rest) -> String.length rest < String.length key.
Proof. intros H. cut_shorter. Qed.

Ltac use_eqs :=
  repeat match goal with
         | H : ?x = _ |- context [match ?x with _ => _ end] => rewrite H; simpl
         end.

Lemma GetValue_eq data key :
  GetValue data key =
  match data !! key with
  | Some v => inr v
  | None =>
      match cut key with
      | None => inl ErrKeyNotFound
      | Some (k, rest) =>
          match data !! k with
          | None => inl ErrKeyNotFound
          | Some d =>
              match toMapStr d with
              | inl err => inl err
              | inr v => GetValue v rest
              end
          end
      end
  end.
Proof. funelim (GetValue data key); use_eqs; reflexivity. Qed.

Lemma Put_eq data key val :
  Put data key val =
  match data !! key with
  | Some _ => inr (<[key := val]> data)
  | None =>
      match cut key with
      | None => inr (<[key := val]> data)
      | Some (k, rest) =>
          match (match data !! k with
                 | None => inr ∅
                 | Some d => toMapStr d
                 end) with
          | inl err => inl err
          | inr v =>
              match Put v rest val with
              | inl err => inl err
              | inr v' => inr (<[k := VMap v']> data)
              end
          end
      end
  end.
Proof.
  funelim (Put data key val);
    repeat match goal with
           | H : Put _ _ _ = match _ with _ => _ end |- _ => clear H
           end;
    use_eqs; reflexivity.
Qed.


Lemma cut_segment key k rest : cut key = Some (k, rest) -> cut k = None.
Proof.
  revert k rest. induction key as [|c s IH]; simpl; intros k rest; [discriminate|].
  destruct (Ascii.eqb c ".") eqn:Ec; [intros [= <- <-]; reflexivity|].
  destruct (cut s) as [[k' r']|]; [|discriminate].
  intros [= <- <-]. simpl. rewrite Ec, (IH _ _ eq_refl). reflexivity.
Qed.

Lemma cut_segment_neq key k rest : cut key = Some (k, rest) -> k <> key.
Proof. intros H ->. apply cut_segment in H as H'. congruence. Qed.

Lemma root_root key : root (root key) = root key.
Proof.
  unfold root at 2 3. destruct (cut key) as [[k rest]|] eqn:E.
  - unfold root. now rewrite (cut_segment _ _ _ E).
  - unfold root. now rewrite E.
Qed.

(** Two keys with different first segments differ, and neither is the
    first segment of the other. *)
Lemma root_neq key key' :
  root key <> root key' ->
  key <> key' /\ key <> root key' /\ root key <> key'.
Proof.
  intros H. repeat split; intros E; apply H.
  - now rewrite E.
  - now rewrite E, root_root.
  - now rewrite <- E, root_root.
Qed.

(** [GetValue] reads a mapping through two of its entries only. *)
Lemma GetValue_local m m' key :
  m' !! key = m !! key -> m' !! root key = m !! root key ->
  GetValue m' key = GetValue m key.
Proof.
  intros H1 H2. rewrite (GetValue_eq m'), (GetValue_eq m), H1.
  destruct (m !! key); [reflexivity|].
  unfold root in H2. destruct (cut key) as [[k rest]|]; [|reflexivity].
  now rewrite H2.
Qed.

(** A successful [Put] replaces one entry of the mapping, the literal key
    or its first segment, and which entry and by what is decided by those
    two entries alone. *)
Lemma Put_inr_local m key val m1 :
  Put m key val = inr m1 ->
  exists X Y, (X = key \/ X = root key) /\ m1 = <[X := Y]> m /\
    forall m2, m2 !! key = m !! key -> m2 !! root key = m !! root key ->
               Put m2 key val = inr (<[X := Y]> m2).
Proof.
  rewrite Put_eq. unfold root.
  destruct (m !! key) eqn:Ek.
  { intros [= <-]. exists key, val. split; [now left|]. split; [reflexivity|].
    intros m2 H1 _. rewrite Put_eq, H1. reflexivity. }
  destruct (cut key) as [[k rest]|] eqn:Ec.
  2:{ intros [= <-]. exists key, val. split; [now left|]. split; [reflexivity|].
      intros m2 H1 _. rewrite Put_eq, H1, Ec. reflexivity. }
  destruct (match m !! k with Some d => toMapStr d | None => inr ∅ end)
    as [err|sub] eqn:Es; [discriminate|].
  destruct (Put sub rest val) as [err|sub'] eqn:Ep; [discriminate|].
  intros [= <-]. exists k, (VMap sub'). split; [now right|]. split; [reflexivity|].
  intros m2 H1 H2. rewrite Put_eq, H1, Ec, H2, Es, Ep. reflexivity.
Qed.

Lemma Put_inl_local m key val err :
  Put m key val = inl err ->
  forall m2, m2 !! key = m !! key -> m2 !! root key = m !! root key ->
             Put m2 key val = inl err.
Proof.
  intros H m2 H1 H2. rewrite Put_eq in H |- *. rewrite H1.
  unfold root in H2.
  destruct (m !! key); [discriminate|].
  destruct (cut key) as [[k rest]|]; [|discriminate].
  rewrite H2.
  destruct (match m !! k with Some d => toMapStr d | None => inr ∅ end)
    as [e|sub]; [exact H|].
  now destruct (Put sub rest val).
Qed.

(** Entries other than the literal key and its first segment are kept. *)
Lemma Put_lookup_other m key val m1 k :
  Put m key val = inr m1 -> k <> key -> k <> root key -> m1 !! k = m !! k.
Proof.
  intros H Hk Hr. apply Put_inr_local in H as (X & Y & [-> | ->] & -> & _);
    now rewrite lookup_insert_ne.
Qed.

(** Reading a key with another first segment is not affected by a write. *)
Lemma GetValue_Put_other m key val m1 key' :
  Put m key val = inr m1 -> root key' <> root key ->
  GetValue m1 key' = GetValue m key'.
Proof.
  intros H Hr. apply root_neq in Hr as Hn. destruct Hn as (H1 & H2 & H3).
  apply GetValue_local; eapply Put_lookup_other; eauto.
Qed.

(** Reading back the key just written gives the value written. *)
Lemma GetValue_Put m key val m1 :
  Put m key val = inr m1 -> GetValue m1 key = inr val.
Proof.
  remember (String.length key) as n eqn:Hn.
  revert m key m1 Hn. induction n as [n IH] using lt_wf_ind.
  intros m key m1 Hn. rewrite Put_eq, GetValue_eq.
  destruct (m !! key) eqn:Ek.
  { intros [= <-]. now rewrite lookup_insert_eq. }
  destruct (cut key) as [[k rest]|] eqn:Ec.
  2:{ intros [= <-]. now rewrite lookup_insert_eq. }
  destruct (match m !! k with Some d => toMapStr d | None => inr ∅ end)
    as [err|sub] eqn:Es; [discriminate|].
  destruct (Put sub rest val) as [err|sub'] eqn:Ep; [discriminate|].
  intros [= <-].
  rewrite lookup_insert_ne by (now apply cut_segment_neq in Ec).
  rewrite Ek, lookup_insert_eq. simpl.
  eapply (IH (String.length rest)); eauto.
  subst n. eapply cut_length; eauto.
Qed.

(** Writing the same value at the same key again changes nothing. *)
Lemma Put_Put m key val m1 :
  Put m key val = inr m1 -> Put m1 key val = inr m1.
Proof.
  remember (String.length key) as n eqn:Hn.
  revert m key m1 Hn. induction n as [n IH] using lt_wf_ind.
  intros m key m1 Hn. rewrite (Put_eq m), (Put_eq m1).
  destruct (m !! key) eqn:Ek.
  { intros [= <-]. now rewrite lookup_insert_eq, insert_insert_eq. }
  destruct (cut key) as [[k rest]|] eqn:Ec.
  2:{ intros [= <-]. now rewrite lookup_insert_eq, insert_insert_eq. }
  destruct (match m !! k with Some d => toMapStr d | None => inr ∅ end)
    as [err|sub] eqn:Es; [discriminate|].
  destruct (Put sub rest val) as [err|sub'] eqn:Ep; [discriminate|].
  intros [= <-].
  rewrite lookup_insert_ne by (now apply cut_segment_neq in Ec).
  rewrite Ek, lookup_insert_eq. simpl.
  erewrite (IH (String.length rest)); eauto.
  - now rewrite insert_insert_eq.
  - subst n. eapply cut_length; eauto.
Qed.

(** A key that can be read can be written. *)
Lemma Put_of_GetValue m key v val :
  GetValue m key = inr v -> exists m1, Put m key val = inr m1.
Proof.
  remember (String.length key) as n eqn:Hn.
  revert m key Hn. induction n as [n IH] using lt_wf_ind.
  intros m key Hn. rewrite GetValue_eq, Put_eq.
  destruct (m !! key) eqn:Ek; [eauto|].
  destruct (cut key) as [[k rest]|] eqn:Ec; [|discriminate].
  destruct (m !! k) as [d|]; [|discriminate].
  destruct (toMapStr d) as [err|sub]; [discriminate|].
  intros H. eapply (IH (String.length rest)) in H as [m1 ->]; eauto.
  subst n. eapply cut_length; eauto.
Qed.

(** A key without a dot is written at the top level, and never fails. *)
Lemma Put_no_dot m key val :
  cut key = None -> Put m key val = inr (<[key := val]> m).
Proof. intros H. rewrite Put_eq, H. now destruct (m !! key). Qed.

(** *** Keys that do not overlap *)

Lemma segments_eq key :
  segments key =
  match cut key with
  | None => [key]
  | Some (k, rest) => k :: segments rest
  end.
Proof.
  funelim (segments key);
    repeat match goal with
           | H : segments _ = match _ with _ => _ end |- _ => clear H
           end;
    use_eqs; reflexivity.
Qed.

Lemma is_prefix_refl l : is_prefix l l = true.
Proof. induction l as [|x l IH]; simpl; [reflexivity|]. now rewrite String.eqb_refl. Qed.

Lemma overlap_refl key : overlap key key = true.
Proof. unfold overlap. now rewrite is_prefix_refl. Qed.

Lemma overlap_sym key key' : overlap key key' = overlap key' key.
Proof. unfold overlap. apply orb_comm. Qed.

Lemma overlap_neq key key' : overlap key key' = false -> key <> key'.
Proof. intros H ->. now rewrite overlap_refl in H. Qed.

(** Keys that do not overlap part at their first segment, or share it and
    do not overlap after it. *)
Lemma overlap_false key key' :
  overlap key key' = false ->
  root key <> root key' \/
  exists k rest rest',
    cut key = Some (k, rest) /\ cut key' = Some (k, rest') /\
    overlap rest rest' = false.
Proof.
  unfold overlap, root. rewrite (segments_eq key), (segments_eq key').
  destruct (cut key) as [[k rest]|], (cut key') as [[k' rest']|]; simpl.
  - destruct (String.eqb_spec k k') as [->|Hn]; [|now left].
    rewrite String.eqb_refl. simpl. intros H. right. now exists k', rest, rest'.
  - destruct (String.eqb_spec k key'); [|now left].
    subst. rewrite String.eqb_refl. simpl. now rewrite orb_true_r.
  - destruct (String.eqb_spec key k'); [|now left].
    subst. rewrite String.eqb_refl. simpl. discriminate.
  - destruct (String.eqb_spec key key'); [|now left]. discriminate.
Qed.

Lemma GetValue_empty key : GetValue ∅ key = inl ErrKeyNotFound.
Proof.
  rewrite GetValue_eq, lookup_empty.
  destruct (cut key) as [[k rest]|]; [|reflexivity]. now rewrite lookup_empty.
Qed.

(** Reading a key is not affected by a write at a key it does not
    overlap. *)
Lemma GetValue_Put_apart m key val m1 key' :
  Put m key val = inr m1 -> overlap key key' = false ->
  GetValue m1 key' = GetValue m key'.
Proof.
  remember (String.length key) as n eqn:Hn.
  revert m key m1 key' Hn. induction n as [n IH] using lt_wf_ind.
  intros m key m1 key' Hn HP Ho.
  destruct (overlap_false _ _ Ho) as [Hr | (k & rest & rest' & Ec & Ec' & Ho')].
  { eapply GetValue_Put_other; eauto. }
  apply overlap_neq in Ho as Hne.
  apply cut_segment_neq in Ec as Hk. apply cut_segment_neq in Ec' as Hk'.
  rewrite Put_eq, Ec in HP. rewrite (GetValue_eq m1), (GetValue_eq m), Ec'.
  destruct (m !! key) eqn:Ek.
  { injection HP as <-. rewrite !lookup_insert_ne by congruence. reflexivity. }
  destruct (match m !! k with Some d => toMapStr d | None => inr ∅ end)
    as [err|sub] eqn:Es; [discriminate|].
  destruct (Put sub rest val) as [err|sub'] eqn:Ep; [discriminate|].
  injection HP as <-. rewrite lookup_insert_ne by congruence.
  destruct (m !! key'); [reflexivity|].
  rewrite lookup_insert_eq. simpl.
  assert (Hsub : GetValue sub' rest' = GetValue sub rest').
  { eapply (IH (String.length rest)); eauto. subst n. eapply cut_length; eauto. }
  rewrite Hsub. destruct (m !! k) as [d|].
  - now rewrite Es.
  - injection Es as <-. apply GetValue_empty.
Qed.

(** Whether a write succeeds, and the error when it does not, is not
    affected by a write at a key it does not overlap. *)
Lemma Put_outcome_apart m key val m1 key' val' :
  Put m key val = inr m1 -> overlap key key' = false ->
  same_outcome (Put m key' val') (Put m1 key' val').
Proof.
  remember (String.length key) as n eqn:Hn.
  revert m key m1 key' Hn. induction n as [n IH] using lt_wf_ind.
  intros m key m1 key' Hn HP Ho.
  destruct (overlap_false _ _ Ho) as [Hr | (k & rest & rest' & Ec & Ec' & Ho')].
  { apply not_eq_sym in Hr. apply root_neq in Hr as Hn'. destruct Hn' as (H1 & H2 & H3).
    assert (E1 : m1 !! key' = m !! key') by (eapply Put_lookup_other; eauto).
    assert (E2 : m1 !! root key' = m !! root key')
      by (eapply Put_lookup_other; eauto).
    destruct (Put m key' val') as [e|m0] eqn:E.
    - rewrite (Put_inl_local _ _ _ _ E m1 E1 E2). reflexivity.
    - apply Put_inr_local in E as (X & Y & _ & _ & HX). now rewrite (HX m1 E1 E2). }
  apply overlap_neq in Ho as Hne.
  apply cut_segment_neq in Ec as Hk. apply cut_segment_neq in Ec' as Hk'.
  rewrite Put_eq, Ec in HP. rewrite (Put_eq m1), (Put_eq m), Ec'.
  destruct (m !! key) eqn:Ek.
  { injection HP as <-. rewrite !lookup_insert_ne by congruence.
    destruct (m !! key'); [exact I|].
    destruct (match m !! k with Some d => toMapStr d | None => inr ∅ end);
      [reflexivity|].
    now destruct (Put _ rest' val'). }
  destruct (match m !! k with Some d => toMapStr d | None => inr ∅ end)
    as [err|sub] eqn:Es; [discriminate|].
  destruct (Put sub rest val) as [err|sub'] eqn:Ep; [discriminate|].
  injection HP as <-. rewrite lookup_insert_ne by congruence.
  destruct (m !! key'); [exact I|].
  rewrite lookup_insert_eq. simpl.
  assert (Hsub : same_outcome (Put sub rest' val') (Put sub' rest' val')).
  { eapply (IH (String.length rest)); eauto. subst n. eapply cut_length; eauto. }
  destruct (Put sub rest' val'), (Put sub' rest' val'); simpl in *; auto.
Qed.

End MapStrFacts.

(** Writes at keys that do not overlap commute. *)
Lemma Put_commute m key val key' val' m1 m2 :
  common.Put m key val = inr m1 -> common.Put m key' val' = inr m2 ->
  common.overlap key key' = false ->
  exists m12, common.Put m1 key' val' = inr m12 /\ common.Put m2 key val = inr m12.
Proof.
  remember (String.length key) as n eqn:Hn.
  revert m key key' m1 m2 Hn. induction n as [n IH] using lt_wf_ind.
  intros m key key' m1 m2 Hn HP HP' Ho.
  assert (Hgen : forall X Y X' Y',
    m1 = <[X := Y]> m -> m2 = <[X' := Y']> m ->
    (forall m0, m0 !! key = m !! key -> m0 !! common.root key = m !! common.root key ->
                common.Put m0 key val = inr (<[X := Y]> m0)) ->
    (forall m0, m0 !! key' = m !! key' -> m0 !! common.root key' = m !! common.root key' ->
                common.Put m0 key' val' = inr (<[X' := Y']> m0)) ->
    X <> X' -> X <> key' -> X <> common.root key' ->
    X' <> key -> X' <> common.root key ->
    exists m12, common.Put m1 key' val' = inr m12 /\ common.Put m2 key val = inr m12).
  { intros X Y X' Y' -> -> HX HX' H1 H2 H3 H4 H5.
    exists (<[X' := Y']> (<[X := Y]> m)). split.
    - apply HX'; now rewrite lookup_insert_ne.
    - rewrite (insert_insert_ne m X' X) by congruence.
      apply HX; now rewrite lookup_insert_ne. }
  destruct (overlap_false _ _ Ho) as [Hr | (k & rest & rest' & Ec & Ec' & Ho')].
  { apply root_neq in Hr as Hn'. destruct Hn' as (H1 & H2 & H3).
    apply Put_inr_local in HP as (X & Y & HX & Hm & Hl).
    apply Put_inr_local in HP' as (X' & Y' & HX' & Hm' & Hl').
    apply (Hgen X Y X' Y'); auto;
      destruct HX as [-> | ->], HX' as [-> | ->]; congruence. }
  apply overlap_neq in Ho as Hne.
  apply cut_segment_neq in Ec as Hk. apply cut_segment_neq in Ec' as Hk'.
  assert (Rk : common.root key = k) by (unfold common.root; now rewrite Ec).
  assert (Rk' : common.root key' = k) by (unfold common.root; now rewrite Ec').
  destruct (m !! key) eqn:Ek.
  { apply Put_inr_local in HP' as (X' & Y' & HX' & Hm' & Hl').
    rewrite Put_eq, Ek in HP. injection HP as <-. subst m2.
    assert (HX'k : X' <> key) by (destruct HX' as [-> | ->]; congruence).
    exists (<[X' := Y']> (<[key := val]> m)). split.
    - apply Hl'; rewrite lookup_insert_ne; congruence.
    - rewrite Put_eq, lookup_insert_ne, Ek by congruence.
      now rewrite insert_insert_ne by congruence. }
  destruct (m !! key') eqn:Ek'.
  { apply Put_inr_local in HP as (X & Y & HX & Hm & Hl).
    rewrite Put_eq, Ek' in HP'. injection HP' as <-. subst m1.
    assert (HXk : X <> key') by (destruct HX as [-> | ->]; congruence).
    exists (<[key' := val']> (<[X := Y]> m)). split.
    - now rewrite Put_eq, lookup_insert_ne, Ek' by congruence.
    - rewrite (insert_insert_ne m key' X) by congruence.
      apply Hl; rewrite lookup_insert_ne; congruence. }
  rewrite Put_eq, Ek, Ec in HP. rewrite Put_eq, Ek', Ec' in HP'.
  destruct (match m !! k with Some d => common.toMapStr d | None => inr ∅ end)
    as [err|sub] eqn:Es; [discriminate|].
  destruct (common.Put sub rest val) as [err|sub1] eqn:Ep; [discriminate|].
  destruct (common.Put sub rest' val') as [err|sub2] eqn:Ep'; [discriminate|].
  injection HP as <-. injection HP' as <-.
  destruct (IH (String.length rest)) with (m := sub) (key := rest) (key' := rest')
    (m1 := sub1) (m2 := sub2) as (sub12 & E1 & E2); auto.
  { subst n. eapply cut_length; eauto. }
  exists (<[k := VMap sub12]> m). split.
  - rewrite Put_eq, lookup_insert_ne, Ek', Ec', lookup_insert_eq by congruence.
    simpl. rewrite E1. now rewrite insert_insert_eq.
  - rewrite Put_eq, lookup_insert_ne, Ek, Ec, lookup_insert_eq by congruence.
    simpl. rewrite E2. now rewrite insert_insert_eq.
Qed.

(** A write over a write at the same key is the second write alone. *)
Lemma Put_absorb (m : gmap string value) key val val' m1 :
  common.Put m key val = inr m1 ->
  common.Put m1 key val' = common.Put m key val'.
Proof.
  remember (String.length key) as n eqn:Hn.
  revert m key m1 Hn. induction n as [n IH] using lt_wf_ind.
  intros m key m1 Hn. rewrite (Put_eq m key val), (Put_eq m1), (Put_eq m key val').
  destruct (m !! key) eqn:Ek.
  { intros [= <-]. now rewrite lookup_insert_eq, insert_insert_eq. }
  destruct (common.cut key) as [[k rest]|] eqn:Ec.
  2:{ intros [= <-]. now rewrite lookup_insert_eq, insert_insert_eq. }
  apply cut_segment_neq in Ec as Hk.
  destruct (match m !! k with Some d => common.toMapStr d | None => inr ∅ end)
    as [err|sub] eqn:Es; [discriminate|].
  destruct (common.Put sub rest val) as [err|sub'] eqn:Ep; [discriminate|].
  intros [= <-]. rewrite lookup_insert_ne, Ek, lookup_insert_eq by congruence.
  simpl.
  assert (E : common.Put sub' rest val' = common.Put sub rest val').
  { eapply (IH (String.length rest)); eauto. subst n. eapply cut_length; eauto. }
  rewrite E.
  destruct (common.Put sub rest val'); [reflexivity|].
  now rewrite insert_insert_eq.
Qed.

Lemma same_or_apart_cases key key' :
  same_or_apart key key' = true ->
  key = key' \/ common.overlap key key' = false.
Proof.
  unfold same_or_apart. rewrite orb_true_iff, negb_true_iff.
  intros [H | H]; [left; now apply String.eqb_eq|now right].
Qed.

(** Whether a write succeeds does not depend on the value written. *)
Lemma Put_succeeds_any (m : gmap string value) key val val' m1 :
  common.Put m key val = inr m1 -> exists m2, common.Put m key val' = inr m2.
Proof.
  remember (String.length key) as n eqn:Hn.
  revert m key m1 Hn. induction n as [n IH] using lt_wf_ind.
  intros m key m1 Hn. rewrite !Put_eq.
  destruct (m !! key); [eauto|].
  destruct (common.cut key) as [[k rest]|] eqn:Ec; [|eauto].
  destruct (match m !! k with Some d => common.toMapStr d | None => inr ∅ end)
    as [err|sub]; [discriminate|].
  destruct (common.Put sub rest val) as [err|sub'] eqn:Ep; [discriminate|].
  intros _. eapply (IH (String.length rest)) in Ep as [m2 ->]; eauto.
  subst n. eapply cut_length; eauto.
Qed.

Lemma writable_Put (m : gmap string value) key val :
  writable m key = true -> exists m1, common.Put m key val = inr m1.
Proof.
  unfold writable. destruct (common.Put m key (VMap ∅)) as [e|m0] eqn:E; [discriminate|].
  intros _. eapply Put_succeeds_any; eauto.
Qed.

(** A write leaves a key it does not overlap as writable as it was. *)
Lemma writable_Put_apart (m : gmap string value) key val m1 key' :
  common.Put m key val = inr m1 -> common.overlap key key' = false ->
  writable m1 key' = writable m key'.
Proof.
  intros H Ho. unfold writable.
  pose proof (Put_outcome_apart m key val m1 key' (VMap ∅) H Ho) as Hs.
  now destruct (common.Put m key' (VMap ∅)), (common.Put m1 key' (VMap ∅)).
Qed.
(** ** One mapping *)

Section ProcessorFacts.

Variable txt : error -> string.

Implicit Types (p : urlParse) (event : beat.Event) (f : fromTo).

(** A mapping that returns an error leaves the event as it found it. *)
Lemma parseField_error p from to event event' err :
  parseField p from to event = (event', Some err) -> event' = event.
Proof.
  unfold parseField.
  destruct (beat.GetValue event from) as [e|[s|z|b|m]]; try congruence.
  - destruct (_ && _); congruence.
  - destruct (url.Parse s); [congruence|].
    destruct (beat.PutValue _ _ _); congruence.
Qed.

(** What a mapping does to the event: nothing, or one write of the
    components at its target. *)
Lemma parseField_event p f event :
  apply_field p event f = event \/
  exists u, beat.PutValue event (target f) (VMap (components u))
            = inr (apply_field p event f).
Proof.
  unfold apply_field, parseField, target.
  destruct (beat.GetValue event (From f)) as [e|[s|z|b|m]]; try (now left).
  - destruct (_ && _); now left.
  - destruct (url.Parse s) as [e|u]; [now left|].
    destruct (beat.PutValue _ _ _) eqn:E; [now left|].
    right. exists u. exact E.
Qed.

(** Only the [ignore_missing] option of the configuration matters to a
    single mapping. *)
Lemma parseField_config p p' from to event :
  IgnoreMissing (config p') = IgnoreMissing (config p) ->
  parseField p' from to event = parseField p from to event.
Proof. unfold parseField. now intros ->. Qed.

Lemma succeed_all_config p p' fields event :
  IgnoreMissing (config p') = IgnoreMissing (config p) ->
  succeed_all p' fields event = succeed_all p fields event.
Proof.
  intros H. revert event. induction fields as [|f fields IH]; intros event; simpl.
  - reflexivity.
  - rewrite (parseField_config p p') by exact H.
    destruct (parseField p _ _ event) as [event' [err|]]; [reflexivity|apply IH].
Qed.

Lemma Run_loop_config p p' backup fields event log :
  IgnoreMissing (config p') = IgnoreMissing (config p) ->
  FailOnError (config p') = FailOnError (config p) ->
  Run_loop txt p' backup fields event log = Run_loop txt p backup fields event log.
Proof.
  intros H1 H2. revert event log.
  induction fields as [|f fields IH]; intros event log; simpl.
  - reflexivity.
  - rewrite (parseField_config p p') by exact H1. rewrite H2.
    destruct (parseField p _ _ event) as [event' [err|]]; [|apply IH].
    destruct (FailOnError (config p)); [reflexivity|apply IH].
Qed.

(** A property of the field mapping that no write at a key apart from
    [key] disturbs is kept by a mapping whose target is apart from [key]. *)
Lemma apply_field_preserves (Q : gmap string value -> Prop) key p f event :
  (forall m key' val m1,
     Q m -> common.Put m key' val = inr m1 ->
     common.overlap key' key = false -> Q m1) ->
  common.overlap (target f) key = false ->
  Q (beat.Fields event) -> Q (beat.Fields (apply_field p event f)).
Proof.
  intros HQ Ho H. destruct (parseField_event p f event) as [-> | [u Hu]]; [exact H|].
  unfold beat.PutValue in Hu.
  destruct (common.Put (beat.Fields event) (target f) _) as [e|m] eqn:E; [discriminate|].
  injection Hu as <-. simpl. eapply HQ; eauto.
Qed.

(** Reading a key apart from the target of a mapping does not see what
    the mapping writes. *)
Lemma apply_field_other p f event key :
  common.overlap (target f) key = false ->
  beat.GetValue (apply_field p event f) key = beat.GetValue event key.
Proof.
  intros Ho. unfold beat.GetValue.
  apply (apply_field_preserves
           (fun m => common.GetValue m key = common.GetValue (beat.Fields event) key) key);
    [|exact Ho|reflexivity].
  intros m key' val m1 Hm HP Ho'. rewrite <- Hm. eapply GetValue_Put_apart; eauto.
Qed.

(** ** The loop of [Run] *)

(** Mappings that return no error are passed one after the other. *)
Lemma Run_loop_succeed p backup fields rest event event_i log :
  succeed_all p fields event = Some event_i ->
  Run_loop txt p backup (fields ++ rest) event log
  = Run_loop txt p backup rest event_i log.
Proof.
  revert event. induction fields as [|f fields IH]; intros event; simpl.
  - now intros [= ->].
  - destruct (parseField p _ _ event) as [event' [err|]]; [discriminate|apply IH].
Qed.

(** In strict mode a failing mapping ends the loop. *)
Lemma Run_loop_strict_failure p backup f rest event log err :
  FailOnError (config p) = true ->
  snd (parseField p (From f) (To f) event) = Some err ->
  Run_loop txt p backup (f :: rest) event log
  = ({| beat.Fields := attach_error_message backup (txt (ErrRun err)) |},
     Some err, (log ++ [txt (ErrRun err)])%list).
Proof.
  intros Hs He. simpl.
  destruct (parseField p _ _ event) as [event' o]. simpl in He. subst o.
  rewrite Hs. unfold attach_error_message, beat.PutValue. simpl.
  now destruct (common.Put backup _ _).
Qed.

(** In best-effort mode the loop passes every mapping. *)
Lemma Run_loop_best_effort p backup fields event log :
  FailOnError (config p) = false ->
  Run_loop txt p backup fields event log
  = (fold_left (apply_field p) fields event, None,
     (log ++ map (fun err => txt (ErrRun err)) (errors_of p fields event))%list).
Proof.
  intros Hb. revert event log.
  induction fields as [|f fields IH]; intros event log; simpl.
  - now rewrite app_nil_r.
  - unfold apply_field at 2.
    destruct (parseField p _ _ event) as [event' [err|]]; simpl.
    + rewrite Hb, IH. now rewrite <- app_assoc.
    + apply IH.
Qed.

Lemma fold_apply_field_other p fields event key :
  (forall f, In f fields -> common.overlap (target f) key = false) ->
  beat.GetValue (fold_left (apply_field p) fields event) key
  = beat.GetValue event key.
Proof.
  revert event. induction fields as [|f fields IH]; intros event H; simpl.
  - reflexivity.
  - rewrite IH by (intros g Hg; apply H; now right).
    apply apply_field_other, H. now left.
Qed.

Lemma errors_of_app p pre post event :
  errors_of p (pre ++ post) event
  = (errors_of p pre event ++
     errors_of p post (fold_left (apply_field p) pre event))%list.
Proof.
  revert event. induction pre as [|f pre IH]; intros event; simpl; [reflexivity|].
  assert (E : apply_field p event f = fst (parseField p (From f) (To f) event))
    by reflexivity.
  rewrite E. destruct (parseField p (From f) (To f) event) as [e1 [err|]]; simpl;
    now rewrite IH.
Qed.

(** What a mapping does to the event in best-effort mode. *)
Lemma apply_field_eq p event f :
  apply_field p event f
  = match url_at event f with
    | Some u =>
        match common.Put (beat.Fields event) (target f) (VMap (components u)) with
        | inr m => {| beat.Fields := m |}
        | inl _ => event
        end
    | None => event
    end.
Proof.
  unfold apply_field, parseField, url_at, beat.PutValue. fold (target f).
  destruct (beat.GetValue event (From f)) as [err|[s| | |]]; simpl;
    try (now destruct (_ && _)); try reflexivity.
  destruct (url.Parse s) as [err|u]; [reflexivity|].
  now destruct (common.Put _ _ _).
Qed.

Lemma url_at_apply_field p event f g :
  common.overlap (target f) (From g) = false ->
  url_at (apply_field p event f) g = url_at event g.
Proof.
  intros H. unfold url_at. now rewrite apply_field_other.
Qed.

End ProcessorFacts.

(** ** The diagnostic at [error.message] *)

Lemma attach_error_message_cases (m : gmap string value) msg :
  common.GetValue (attach_error_message m msg) "error.message" = inr (VString msg) \/
  attach_error_message m msg = m /\
  exists d, m !! "error" = Some d /\ forall sub, d <> VMap sub.
Proof.
  unfold attach_error_message.
  destruct (common.Put m "error.message" (VString msg)) as [e|m'] eqn:E.
  - right. split; [reflexivity|].
    rewrite Put_eq in E.
    destruct (m !! "error.message"); [discriminate|].
    assert (Hc : common.cut "error.message" = Some ("error", "message")) by reflexivity.
    rewrite Hc in E. clear Hc.
    destruct (m !! "error") as [d|] eqn:Ed.
    + exists d. split; [reflexivity|]. intros sub ->.
      unfold common.toMapStr in E.
      rewrite Put_no_dot in E by reflexivity. discriminate.
    + rewrite Put_no_dot in E by reflexivity. discriminate.
  - left. eapply GetValue_Put; eauto.
Qed.

Lemma attach_error_message_other (m : gmap string value) msg key :
  common.overlap "error.message" key = false ->
  common.GetValue (attach_error_message m msg) key = common.GetValue m key.
Proof.
  intros Ho. unfold attach_error_message.
  destruct (common.Put m "error.message" (VString msg)) as [e|m'] eqn:E; [reflexivity|].
  eapply GetValue_Put_apart; eauto.
Qed.

Lemma attach_error_message_writable (m : gmap string value) msg :
  writable m "error.message" = true ->
  common.GetValue (attach_error_message m msg) "error.message" = inr (VString msg).
Proof.
  intros Hw. unfold attach_error_message.
  destruct (writable_Put _ _ (VString msg) Hw) as [m1 Hm1]. rewrite Hm1.
  eapply GetValue_Put; eauto.
Qed.

(** When [error.message] can be written: there is a key [error.message]
    at the top already, or nothing at [error], or a mapping at [error]. *)
Lemma writable_error_message (m : gmap string value) :
  writable m "error.message" = true <->
  is_Some (m !! "error.message") \/ m !! "error" = None \/
  exists sub, m !! "error" = Some (VMap sub).
Proof.
  unfold writable. rewrite Put_eq.
  assert (Hc : common.cut "error.message" = Some ("error", "message")) by reflexivity.
  rewrite Hc. clear Hc.
  destruct (m !! "error.message") as [d0|] eqn:E0.
  { split; [intros _; left; eauto|reflexivity]. }
  destruct (m !! "error") as [d|] eqn:Ed.
  - destruct d as [s|z|b|sub]; simpl.
    + split; [discriminate|].
      intros [[x Hx] | [H | [sub H]]]; discriminate.
    + split; [discriminate|].
      intros [[x Hx] | [H | [sub H]]]; discriminate.
    + split; [discriminate|].
      intros [[x Hx] | [H | [sub H]]]; discriminate.
    + rewrite Put_no_dot by reflexivity. split; [|reflexivity].
      intros _. right. right. eauto.
  - rewrite Put_no_dot by reflexivity. split; [|reflexivity].
    intros _. right. now left.
Qed.
(** * The execution contract *)

(** C1, as the code has it (strict mode, a mapping fails).  With
    [fail_on_error] set, let the mappings before [field] return no error
    and let [field] return [err], whatever the reason (field missing and
    not ignored, value not a string, URL not parseable, target not
    writable).  Then [Run] returns [err] itself together with the fields
    the event came in with, to which [PutValue("error.message", ...)] has
    been applied: nothing the earlier mappings wrote is left.  A key that
    does not overlap [error.message] reads as in the input event, and
    [error.message] holds the diagnostic whenever it can be written in
    the fields the event came in with: they have a key [error.message]
    at the top, or nothing at [error], or a mapping at [error].  One
    message is logged, and the mappings after [field] play no part: any
    other list of them gives the same result. *)
Theorem Run_fail_on_error_restores
    (txt : error -> string) (p : urlParse) (event : beat.Event)
    (pre : list fromTo) (field : fromTo) (post : list fromTo)
    (event_i : beat.Event) (err : error) :
  FailOnError (config p) = true ->
  Fields (config p) = (pre ++ field :: post)%list ->
  succeed_all p pre event = Some event_i ->
  snd (parseField p (From field) (To field) event_i) = Some err ->
  Run txt p event
  = ({| beat.Fields := attach_error_message (beat.Fields event) (txt (ErrRun err)) |},
     Some err, [txt (ErrRun err)]) /\
  (forall key, common.overlap "error.message" key = false ->
     beat.GetValue (event_of (Run txt p event)) key = beat.GetValue event key) /\
  (is_Some (beat.Fields event !! "error.message") \/
   beat.Fields event !! "error" = None \/
   (exists sub, beat.Fields event !! "error" = Some (VMap sub)) ->
   beat.GetValue (event_of (Run txt p event)) "error.message"
   = inr (VString (txt (ErrRun err)))) /\
  (forall p' post',
     FailOnError (config p') = true ->
     IgnoreMissing (config p') = IgnoreMissing (config p) ->
     Fields (config p') = (pre ++ field :: post')%list ->
     Run txt p' event = Run txt p event).
Proof.
  intros Hs Hf Hpre Herr.
  assert (HR : forall p' post',
             FailOnError (config p') = true ->
             IgnoreMissing (config p') = IgnoreMissing (config p) ->
             Fields (config p') = (pre ++ field :: post')%list ->
             Run txt p' event
             = ({| beat.Fields :=
                    attach_error_message (beat.Fields event) (txt (ErrRun err)) |},
                Some err, [txt (ErrRun err)])).
  { intros p' post' Hs' Hi' Hf'. unfold Run. rewrite Hs', Hf'.
    erewrite Run_loop_succeed
      by (rewrite (succeed_all_config p p') by exact Hi'; exact Hpre).
    apply Run_loop_strict_failure; [exact Hs'|].
    rewrite (parseField_config p p') by exact Hi'. exact Herr. }
  rewrite (HR p post Hs eq_refl Hf). unfold event_of, beat.GetValue. simpl.
  split; [reflexivity|]. split; [|split].
  - intros key Hk. now apply attach_error_message_other.
  - intros Hw. now apply attach_error_message_writable, writable_error_message.
  - intros p' post' Hs' Hi' Hf'. now apply HR with post'.
Qed.

(** C3, as the code has it (best-effort mode).  With [fail_on_error]
    unset, [Run] returns no error and the event obtained by passing the
    mappings in the order of the configuration, each one on the event its
    predecessors left.  A mapping that returns an error changes nothing
    and its message is in the log.  A mapping that returns no error,
    having found a URL, leaves the components at its target, where the
    next mapping finds them, and where the event [Run] returns has them
    unless a later mapping has a target that overlaps this one.  [Run]
    itself writes nothing: [error.message] reads as in the input event as
    long as no mapping has a target that overlaps it. *)
Theorem Run_best_effort
    (txt : error -> string) (p : urlParse) (event : beat.Event) :
  FailOnError (config p) = false ->
  Run txt p event
  = (fold_left (apply_field p) (Fields (config p)) event, None,
     map (fun err => txt (ErrRun err)) (errors_of p (Fields (config p)) event)) /\
  (forall pre f post err,
     Fields (config p) = (pre ++ f :: post)%list ->
     snd (parseField p (From f) (To f) (fold_left (apply_field p) pre event))
     = Some err ->
     fold_left (apply_field p) (pre ++ [f]) event
     = fold_left (apply_field p) pre event /\
     In (txt (ErrRun err)) (snd (Run txt p event))) /\
  (forall pre f post u,
     Fields (config p) = (pre ++ f :: post)%list ->
     snd (parseField p (From f) (To f) (fold_left (apply_field p) pre event))
     = None ->
     url_at (fold_left (apply_field p) pre event) f = Some u ->
     beat.GetValue (fold_left (apply_field p) (pre ++ [f]) event) (target f)
     = inr (VMap (components u)) /\
     ((forall g, In g post -> common.overlap (target g) (target f) = false) ->
      beat.GetValue (event_of (Run txt p event)) (target f)
      = inr (VMap (components u)))) /\
  ((forall f, In f (Fields (config p)) ->
      common.overlap (target f) "error.message" = false) ->
   beat.GetValue (event_of (Run txt p event)) "error.message"
   = beat.GetValue event "error.message").
Proof.
  intros Hb.
  assert (HR : Run txt p event
               = (fold_left (apply_field p) (Fields (config p)) event, None,
                  map (fun err => txt (ErrRun err))
                      (errors_of p (Fields (config p)) event))).
  { unfold Run. now rewrite Run_loop_best_effort. }
  split; [exact HR|]. split; [|split].
  - intros pre f post err Hf Herr. split.
    + rewrite fold_left_app. simpl. unfold apply_field at 1.
      destruct (parseField p (From f) (To f) _) as [e' o] eqn:E.
      simpl in Herr. subst o. simpl. eapply parseField_error; eauto.
    + rewrite HR, Hf, errors_of_app. cbn [snd].
      apply (in_map (fun err => txt (ErrRun err))), in_or_app. right. simpl.
      destruct (parseField p (From f) (To f) _) as [e' o].
      simpl in Herr. subst o. now left.
  - intros pre f post u Hf Hok Hu.
    set (e := fold_left (apply_field p) pre event) in *.
    assert (Hget : beat.GetValue (apply_field p e f) (target f)
                   = inr (VMap (components u))).
    { revert Hok. unfold apply_field, parseField, beat.PutValue.
      unfold url_at in Hu. fold (target f).
      destruct (beat.GetValue e (From f)) as [err|[s| | |]]; try discriminate.
      destruct (url.Parse s) as [err|u']; [discriminate|]. injection Hu as ->.
      destruct (common.Put (beat.Fields e) (target f) _) as [err|m] eqn:E;
        [discriminate|].
      intros _. unfold beat.GetValue. simpl. eapply GetValue_Put; eauto. }
    split.
    + rewrite fold_left_app. exact Hget.
    + intros Hpost. rewrite HR, Hf. unfold event_of. cbn [fst].
      rewrite fold_left_app. cbn [fold_left]. fold e.
      rewrite fold_apply_field_other by exact Hpost. exact Hget.
  - intros Ht. rewrite HR. unfold event_of. simpl.
    apply fold_apply_field_other. exact Ht.
Qed.


(** C9 (lookup failures that are not a missing key).  When the lookup of
    [from] fails with an error whose cause is not [ErrKeyNotFound], the
    mapping returns an error whether [ignore_missing] is set or not, and
    the loop of [Run] treats it as any failure: in strict mode it returns
    the backup with the diagnostic and the error, in best-effort mode it
    logs and goes on.  A lookup that has to pass through a value that is
    not a mapping is such a failure. *)
Theorem lookup_failure_is_not_ignored
    (txt : error -> string) (p : urlParse) (from to : string) (event : beat.Event)
    (err : error) :
  beat.GetValue event from = inl err ->
  is_ErrKeyNotFound (errors.Cause err) = false ->
  parseField p from to event = (event, Some (ErrFetch from err)) /\
  (forall backup rest log,
     Run_loop txt p backup ({| From := from; To := to |} :: rest) event log
     = if FailOnError (config p)
       then ({| beat.Fields :=
                 attach_error_message backup (txt (ErrRun (ErrFetch from err))) |},
             Some (ErrFetch from err),
             (log ++ [txt (ErrRun (ErrFetch from err))])%list)
       else Run_loop txt p backup rest event
              (log ++ [txt (ErrRun (ErrFetch from err))])%list) /\
  (forall (m : gmap string value) key k rest d,
     m !! key = None -> common.cut key = Some (k, rest) ->
     m !! k = Some d -> (forall sub, d <> VMap sub) ->
     common.GetValue m key = inl (ErrExpectedMap d) /\
     is_ErrKeyNotFound (errors.Cause (ErrExpectedMap d)) = false).
Proof.
  intros Hg Hc.
  assert (HP : parseField p from to event = (event, Some (ErrFetch from err))).
  { unfold parseField. now rewrite Hg, Hc, andb_false_r. }
  split; [exact HP|]. split.
  - intros backup rest log.
    destruct (FailOnError (config p)) eqn:Hs.
    + apply Run_loop_strict_failure; [exact Hs|]. simpl. now rewrite HP.
    + simpl. now rewrite HP, Hs.
  - intros m key k rest d Hk Hcut Hd Hn. split; [|reflexivity].
    rewrite GetValue_eq, Hk, Hcut, Hd.
    destruct d; try reflexivity. now elim (Hn m0).
Qed.

(** C4 (the scenario of the spec).  On the event
    [{request: "https://example.com:8443/a/b?x=1#frag"}] with the single
    mapping from [request] to [request], [Run] returns no error, logs
    nothing, and [request] holds the eight components listed. *)
Theorem Run_example_request
    (txt : error -> string) (ignore_missing fail_on_error : bool) :
  Run txt (processor [ {| From := "request"; To := "request" |} ]
             ignore_missing fail_on_error)
      {| beat.Fields :=
           {[ "request" := VString "https://example.com:8443/a/b?x=1#frag" ]} |}
  = ({| beat.Fields :=
         {[ "request" :=
              VMap (<["scheme" := VString "https"]>
                   (<["opaque" := VString ""]>
                   (<["hostname" := VString "example.com"]>
                   (<["port" := VString "8443"]>
                   (<["path" := VString "/a/b"]>
                   (<["raw_path" := VString ""]>
                   (<["raw_query" := VString "x=1"]>
                   (<["fragment" := VString "frag"]> ∅)))))))) ]} |},
     None, []).
Proof. vm_compute. reflexivity. Qed.

(** C6 (a value of the wrong type in best-effort mode).  On the event
    [{request: 42}] with a mapping from [request] and [fail_on_error]
    unset, [Run] returns the event as it was and no error; nothing is
    written, at [error.message] or elsewhere, and the failure is logged. *)
Theorem Run_example_wrong_type
    (txt : error -> string) (to : string) (ignore_missing : bool) :
  Run txt (processor [ {| From := "request"; To := to |} ] ignore_missing false)
      {| beat.Fields := {[ "request" := VInt 42 ]} |}
  = ({| beat.Fields := {[ "request" := VInt 42 ]} |}, None,
     [txt (ErrRun (ErrInvalidType (VInt 42)))]).
Proof. vm_compute. reflexivity. Qed.

(** ** The empty string *)

Lemma components_empty : components url.new_URL = empty_components.
Proof. reflexivity. Qed.

Lemma Parse_empty : url.Parse "" = inr url.new_URL.
Proof. reflexivity. Qed.

Lemma target_cases from to :
  target {| From := from; To := to |} = from /\ (to = "" \/ to = from) \/
  target {| From := from; To := to |} = to /\ to <> "".
Proof.
  unfold target. simpl. destruct (String.eqb_spec to "") as [->|Hn].
  - left. split; [reflexivity|now left].
  - now right.
Qed.

(** C10, as the code has it.  When [from] holds the empty string and the
    target path can be written, which is always so when [to] is empty or
    equal to [from], the mapping returns no error: the empty string
    parses to the URL with no component set, and the target then holds
    the eight components, each the empty string. *)
Theorem empty_string_is_parsed
    (p : urlParse) (from to : string) (event : beat.Event) :
  beat.GetValue event from = inr (VString "") ->
  (to = "" \/ to = from \/
   exists e, beat.PutValue event to (VMap empty_components) = inr e) ->
  url.Parse "" = inr url.new_URL /\
  exists event',
    parseField p from to event = (event', None) /\
    beat.GetValue event' (target {| From := from; To := to |})
    = inr (VMap empty_components).
Proof.
  intros Hg Hw. split; [reflexivity|].
  assert (Hput : exists e, beat.PutValue event (target {| From := from; To := to |})
                             (VMap empty_components) = inr e).
  { destruct (target_cases from to) as [[-> _] | [-> Hn]].
    - unfold beat.PutValue.
      destruct (Put_of_GetValue _ _ _ (VMap empty_components) Hg) as [m1 ->]. eauto.
    - destruct Hw as [-> | [-> | Hw]]; [now elim Hn| |exact Hw].
      unfold beat.PutValue.
      destruct (Put_of_GetValue _ _ _ (VMap empty_components) Hg) as [m1 ->]. eauto. }
  destruct Hput as [e He]. exists e. unfold parseField. rewrite Hg, Parse_empty.
  change (if String.eqb to "" then from else to)
    with (target {| From := from; To := to |}).
  rewrite components_empty, He.
  split; [reflexivity|].
  unfold beat.PutValue in He.
  destruct (common.Put _ _ _) as [err|m1] eqn:E; [discriminate|].
  injection He as <-. unfold beat.GetValue. simpl. eapply GetValue_Put; eauto.
Qed.

(** ** Mappings that keep out of each other's way *)

Lemma dom_components u : dom (components u) = component_keys.
Proof.
  unfold components, component_keys.
  rewrite !dom_insert_L, dom_empty_L. set_solver.
Qed.

Section Separated.

Variable p : urlParse.

Implicit Types (event : beat.Event) (f g : fromTo).

(** What a mapping does when its source holds a URL and its target can be
    written. *)
Lemma parseField_writes f event u :
  url_at event f = Some u ->
  writable (beat.Fields event) (target f) = true ->
  exists m1,
    common.Put (beat.Fields event) (target f) (VMap (components u)) = inr m1 /\
    parseField p (From f) (To f) event = ({| beat.Fields := m1 |}, None).
Proof.
  unfold url_at, parseField. intros Hu Hw.
  destruct (beat.GetValue event (From f)) as [e|[s|z|b|m]]; try discriminate.
  destruct (url.Parse s) as [e|u']; [discriminate|]. injection Hu as ->.
  destruct (writable_Put _ _ (VMap (components u)) Hw) as [m1 Hm1].
  exists m1. split; [exact Hm1|].
  change (if String.eqb (To f) "" then From f else To f) with (target f).
  unfold beat.PutValue. now rewrite Hm1.
Qed.

Lemma url_at_Put_apart event f key val m1 :
  common.Put (beat.Fields event) key val = inr m1 ->
  common.overlap key (From f) = false ->
  url_at {| beat.Fields := m1 |} f = url_at event f.
Proof.
  intros H Ho. unfold url_at, beat.GetValue. simpl.
  now rewrite (GetValue_Put_apart _ _ _ _ _ H Ho).
Qed.

Lemma separated_cons f rest :
  separated (f :: rest) = true ->
  separated rest = true /\
  forall g, In g rest ->
    common.overlap (target f) (From g) = false /\
    (target f = target g \/ common.overlap (target f) (target g) = false).
Proof.
  simpl. rewrite andb_true_iff, forallb_forall. intros [H1 H2]. split; [exact H2|].
  intros g Hg. specialize (H1 g Hg).
  rewrite andb_true_iff, negb_true_iff in H1. destruct H1 as [H1 H3].
  split; [exact H1|now apply same_or_apart_cases].
Qed.

(** The last mapping that writes at a key is a mapping of the list, and
    the key is its target; there is one as soon as some mapping of the
    list has that target. *)
Lemma writer_Some fields key g :
  writer fields key = Some g -> In g fields /\ target g = key.
Proof.
  induction fields as [|f rest IH]; simpl; [discriminate|].
  destruct (writer rest key) as [h|].
  - intros [= <-]. destruct (IH eq_refl) as [H1 H2]. auto.
  - destruct (String.eqb_spec (target f) key); [|discriminate].
    intros [= <-]. auto.
Qed.

Lemma writer_None fields key g :
  writer fields key = None -> In g fields -> target g <> key.
Proof.
  induction fields as [|f rest IH]; simpl; [intros _ []|].
  destruct (writer rest key) as [h|]; [discriminate|].
  destruct (String.eqb_spec (target f) key); [discriminate|].
  intros _ [<- | Hg]; [assumption|now apply IH].
Qed.

(** A key that has been written can be written again. *)
Lemma writable_after_Put (m : gmap string value) key val m1 :
  common.Put m key val = inr m1 -> writable m1 key = true.
Proof.
  intros H. apply Put_Put in H. unfold writable.
  destruct (Put_succeeds_any _ _ _ (VMap ∅) _ H) as [m2 ->]. reflexivity.
Qed.

(** The mappings of a separated list, each finding a URL at its source and
    a writable target in the event [Run] was given, all succeed; each
    target ends up holding the components that the last mapping with that
    target found at its source, and keys that overlap no target read as
    before. *)
Lemma succeed_all_separated fields event :
  separated fields = true ->
  (forall f, In f fields -> url_at event f <> None) ->
  (forall f, In f fields -> writable (beat.Fields event) (target f) = true) ->
  exists event',
    succeed_all p fields event = Some event' /\
    (forall f, In f fields ->
       exists g u, writer fields (target f) = Some g /\
                   url_at event g = Some u /\
                   beat.GetValue event' (target f) = inr (VMap (components u))) /\
    (forall key,
       (forall f, In f fields -> common.overlap (target f) key = false) ->
       beat.GetValue event' key = beat.GetValue event key).
Proof.
  revert event. induction fields as [|f rest IH]; intros event Hsep Hurl Hwr.
  - exists event. simpl. split; [reflexivity|]. split; [intros f []|reflexivity].
  - apply separated_cons in Hsep as [Hsep Hf].
    destruct (url_at event f) as [u|] eqn:Eu; [|now elim (Hurl f (or_introl eq_refl))].
    destruct (parseField_writes f event u Eu (Hwr f (or_introl eq_refl)))
      as (m1 & Hput & Hpf).
    assert (Hat : forall g, In g rest ->
                    url_at {| beat.Fields := m1 |} g = url_at event g).
    { intros g Hg. apply (url_at_Put_apart event g _ _ _ Hput), (Hf g Hg). }
    destruct (IH {| beat.Fields := m1 |} Hsep) as (event' & Hall & Htargets & Hframe).
    + intros g Hg. rewrite (Hat g Hg). apply Hurl. now right.
    + intros g Hg. simpl. destruct (Hf g Hg) as [_ [Heq | Hap]].
      * rewrite <- Heq. eapply writable_after_Put; eauto.
      * rewrite (writable_Put_apart _ _ _ _ _ Hput Hap). apply Hwr. now right.
    + assert (Hrest : forall g, In g rest ->
                exists h v, writer (f :: rest) (target g) = Some h /\
                            url_at event h = Some v /\
                            beat.GetValue event' (target g) = inr (VMap (components v))).
      { intros g Hg. destruct (Htargets g Hg) as (h & v & Hw & Hv & Hget).
        exists h, v. simpl. rewrite Hw. split; [reflexivity|]. split; [|exact Hget].
        rewrite <- Hv. symmetry. apply Hat. now apply writer_Some in Hw as [Hw _]. }
      exists event'. split; [|split].
      * simpl. now rewrite Hpf.
      * intros g [<- | Hg]; [|now apply Hrest].
        destruct (writer rest (target f)) as [h|] eqn:Ew.
        -- apply writer_Some in Ew as [Hh Ht].
           destruct (Hrest h Hh) as (h' & v & Hw & Hv & Hget).
           rewrite Ht in Hw, Hget. now exists h', v.
        -- exists f, u. simpl. rewrite Ew, String.eqb_refl.
           split; [reflexivity|]. split; [exact Eu|].
           rewrite Hframe.
           ++ unfold beat.GetValue. simpl. eapply GetValue_Put; eauto.
           ++ intros g Hg. rewrite overlap_sym.
              destruct (Hf g Hg) as [_ [Heq | Hap]]; [|exact Hap].
              now elim (writer_None rest (target f) g Ew Hg).
      * intros key Hkey. rewrite Hframe by (intros g Hg; apply Hkey; now right).
        unfold beat.GetValue. simpl. eapply GetValue_Put_apart; eauto.
        apply Hkey. now left.
Qed.

End Separated.

(** C2, as the code has it.  Let every mapping find at its source, in the
    event [Run] is given, a string that parses, and a target that can be
    written there; let the target of no mapping overlap a path that a
    later mapping reads, and let the targets of two mappings be the same
    path or not overlap.  Then [Run], in strict mode as in best-effort
    mode, returns no error and logs nothing; every target holds a mapping
    of exactly the eight components, those of the URL that the last
    mapping with that target found at its source; every key that overlaps
    no target reads as in the input event. *)
Theorem Run_writes_components
    (txt : error -> string) (p : urlParse) (event : beat.Event) :
  separated (Fields (config p)) = true ->
  (forall f, In f (Fields (config p)) -> url_at event f <> None) ->
  (forall f, In f (Fields (config p)) ->
     writable (beat.Fields event) (target f) = true) ->
  exists event',
    Run txt p event = (event', None, []) /\
    (forall f, In f (Fields (config p)) ->
       exists g u, writer (Fields (config p)) (target f) = Some g /\
                   url_at event g = Some u /\
                   beat.GetValue event' (target f) = inr (VMap (components u)) /\
                   dom (components u) = component_keys) /\
    (forall key,
       (forall f, In f (Fields (config p)) ->
          common.overlap (target f) key = false) ->
       beat.GetValue event' key = beat.GetValue event key).
Proof.
  intros Hsep Hurl Hwr.
  destruct (succeed_all_separated p _ event Hsep Hurl Hwr)
    as (event' & Hall & Htargets & Hframe).
  exists event'. split; [|split].
  - unfold Run. rewrite <- (app_nil_r (Fields (config p))).
    now rewrite (Run_loop_succeed txt p _ _ [] event event' [] Hall).
  - intros f Hf. destruct (Htargets f Hf) as (g & u & Hw & Hu & Hget).
    exists g, u. split; [exact Hw|]. split; [exact Hu|].
    split; [exact Hget|apply dom_components].
  - exact Hframe.
Qed.
(** ** Running twice *)

(** *** Writes that are tried *)

Lemma try_put_other e w key :
  common.overlap (fst w) key = false ->
  beat.GetValue (try_put e w) key = beat.GetValue e key.
Proof.
  intros Ho. unfold try_put, beat.GetValue.
  destruct (common.Put (beat.Fields e) (fst w) (snd w)) as [err|m] eqn:E; [reflexivity|].
  simpl. eapply GetValue_Put_apart; eauto.
Qed.

(** Whether a write succeeds, and its error, after a write that was tried
    at the same key or at a key that does not overlap it. *)
Lemma try_put_outcome e w key val :
  fst w = key \/ common.overlap (fst w) key = false ->
  common.same_outcome (common.Put (beat.Fields e) key val)
                      (common.Put (beat.Fields (try_put e w)) key val).
Proof.
  intros Hw. unfold try_put.
  destruct (common.Put (beat.Fields e) (fst w) (snd w)) as [err|m] eqn:E.
  - unfold common.same_outcome. now destruct (common.Put (beat.Fields e) key val).
  - simpl. destruct Hw as [<- | Ho].
    + rewrite (Put_absorb _ _ _ val _ E).
      unfold common.same_outcome.
      now destruct (common.Put (beat.Fields e) (fst w) val).
    + eapply Put_outcome_apart; eauto.
Qed.

Lemma try_put_absorb e key val val' :
  try_put (try_put e (key, val)) (key, val') = try_put e (key, val').
Proof.
  unfold try_put. simpl.
  destruct (common.Put (beat.Fields e) key val) as [err|m] eqn:E; simpl.
  - reflexivity.
  - rewrite (Put_absorb _ _ _ val' _ E).
    destruct (Put_succeeds_any _ _ _ val' _ E) as [m2 ->]. reflexivity.
Qed.

Lemma try_put_commute e w w' :
  common.overlap (fst w) (fst w') = false ->
  try_put (try_put e w) w' = try_put (try_put e w') w.
Proof.
  intros Ho. unfold try_put.
  destruct (common.Put (beat.Fields e) (fst w) (snd w)) as [err|m] eqn:E;
  destruct (common.Put (beat.Fields e) (fst w') (snd w')) as [err'|m'] eqn:E'; simpl.
  - now rewrite ?E, ?E'.
  - rewrite ?E'.
    assert (H := Put_outcome_apart _ _ _ _ (fst w) (snd w) E'
                   ltac:(now rewrite overlap_sym)).
    rewrite E in H. unfold common.same_outcome in H.
    now destruct (common.Put m' _ _).
  - rewrite ?E.
    assert (H := Put_outcome_apart _ _ _ _ (fst w') (snd w') E Ho).
    rewrite E' in H. unfold common.same_outcome in H.
    now destruct (common.Put m _ _).
  - destruct (Put_commute _ _ _ _ _ _ _ E E' Ho) as (m12 & E1 & E2).
    now rewrite E1, E2.
Qed.

(** A write tried after a list of writes, each at the same key or at a
    key that does not overlap it, can be tried first; the writes of the
    list at the same key are then of no consequence. *)
Lemma try_put_fold ws e key val :
  (forall w, In w ws -> fst w = key \/ common.overlap (fst w) key = false) ->
  try_put (fold_left try_put ws e) (key, val)
  = fold_left try_put
      (List.filter (fun w => negb (String.eqb (fst w) key)) ws)
      (try_put e (key, val)).
Proof.
  revert e. induction ws as [|w ws IH]; intros e Hws; [reflexivity|].
  cbn [fold_left List.filter].
  rewrite IH by (intros w' Hw'; apply Hws; now right).
  destruct (Hws w (or_introl eq_refl)) as [Hk | Ho].
  - destruct w as [k v]. simpl in Hk. subst k. cbn [fst].
    rewrite String.eqb_refl. cbn [negb]. now rewrite try_put_absorb.
  - apply overlap_neq in Ho as Hn.
    destruct (String.eqb_spec (fst w) key) as [|_]; [contradiction|].
    cbn [negb fold_left]. now rewrite (try_put_commute e w (key, val)).
Qed.

Lemma fold_try_put_other ws e key :
  (forall w, In w ws -> common.overlap (fst w) key = false) ->
  beat.GetValue (fold_left try_put ws e) key = beat.GetValue e key.
Proof.
  revert e. induction ws as [|w ws IH]; intros e Hws; [reflexivity|].
  cbn [fold_left]. rewrite IH by (intros w' Hw'; apply Hws; now right).
  apply try_put_other, Hws. now left.
Qed.

Lemma same_outcome_trans r1 r2 r3 :
  common.same_outcome r1 r2 -> common.same_outcome r2 r3 -> common.same_outcome r1 r3.
Proof.
  unfold common.same_outcome.
  destruct r1, r2, r3; try tauto; congruence.
Qed.

Lemma fold_try_put_outcome ws e key val :
  (forall w, In w ws -> fst w = key \/ common.overlap (fst w) key = false) ->
  common.same_outcome (common.Put (beat.Fields e) key val)
                      (common.Put (beat.Fields (fold_left try_put ws e)) key val).
Proof.
  revert e. induction ws as [|w ws IH]; intros e Hws.
  - unfold common.same_outcome. simpl. now destruct (common.Put _ _ _).
  - cbn [fold_left]. eapply same_outcome_trans.
    + apply (try_put_outcome e w), Hws. now left.
    + apply IH. intros w' Hw'. apply Hws. now right.
Qed.

Section Twice.

Variable txt : error -> string.
Variable p : urlParse.

Implicit Types (event e : beat.Event) (f g : fromTo).

(** [Run] in terms of the mappings' own results. *)
Lemma Run_loop_strict backup fields event log :
  FailOnError (config p) = true ->
  Run_loop txt p backup fields event log
  = match errors_of p fields event with
    | [] => (fold_left (apply_field p) fields event, None, log)
    | err :: _ =>
        ({| beat.Fields := attach_error_message backup (txt (ErrRun err)) |},
         Some err, (log ++ [txt (ErrRun err)])%list)
    end.
Proof.
  intros Hs. revert event. induction fields as [|f fields IH]; intros event.
  - reflexivity.
  - destruct (parseField p (From f) (To f) event) as [event' [err|]] eqn:E.
    + rewrite (Run_loop_strict_failure txt p backup f fields event log err Hs)
        by now rewrite E.
      simpl. now rewrite E.
    + simpl. unfold apply_field at 2. rewrite E. simpl. apply IH.
Qed.

Lemma Run_no_error event event' log :
  Run txt p event = (event', None, log) ->
  event' = fold_left (apply_field p) (Fields (config p)) event /\
  log = map (fun err => txt (ErrRun err)) (errors_of p (Fields (config p)) event) /\
  (FailOnError (config p) = true -> errors_of p (Fields (config p)) event = []).
Proof.
  unfold Run. destruct (FailOnError (config p)) eqn:Hs.
  - rewrite Run_loop_strict by exact Hs.
    destruct (errors_of p (Fields (config p)) event) as [|err errs]; [|discriminate].
    intros [= <- <-]. repeat split.
  - rewrite Run_loop_best_effort by exact Hs. simpl.
    intros [= <- <-]. repeat split. discriminate.
Qed.

Lemma independent_cons f rest :
  independent (f :: rest) = true ->
  independent rest = true /\
  common.overlap (target f) (From f) = false /\
  forall g, In g rest ->
    common.overlap (target g) (From f) = false /\
    (target g = target f \/ common.overlap (target g) (target f) = false).
Proof.
  simpl. rewrite !andb_true_iff, forallb_forall, negb_true_iff.
  intros [[H0 H1] H2]. split; [exact H2|]. split; [exact H0|].
  intros g Hg. specialize (H1 g Hg).
  rewrite andb_true_iff, negb_true_iff in H1. destruct H1 as [H1 H3].
  split; [exact H1|].
  destruct (same_or_apart_cases _ _ H3) as [E | E]; [now left|right].
  now rewrite overlap_sym.
Qed.

(** *** The mappings as writes *)

Lemma apply_field_try_put f e :
  apply_field p e f
  = match url_at e f with
    | Some u => try_put e (target f, VMap (components u))
    | None => e
    end.
Proof. rewrite apply_field_eq. unfold try_put. reflexivity. Qed.

Lemma writes_target fields e w :
  In w (writes p fields e) -> exists f, In f fields /\ fst w = target f.
Proof.
  revert e. induction fields as [|f rest IH]; intros e; simpl; [intros []|].
  destruct (url_at e f) as [u|].
  - intros [<- | Hw]; [exists f; auto|].
    destruct (IH _ Hw) as (g & Hg & E). exists g. auto.
  - intros Hw. destruct (IH _ Hw) as (g & Hg & E). exists g. auto.
Qed.

(** The event the mappings leave is the event with their writes tried
    one after the other. *)
Lemma fold_writes fields e :
  fold_left try_put (writes p fields e) e = fold_left (apply_field p) fields e.
Proof.
  revert e. induction fields as [|f rest IH]; intros e; [reflexivity|].
  cbn [writes fold_left]. rewrite <- IH. rewrite (apply_field_try_put f e).
  now destruct (url_at e f).
Qed.

(** The error of a mapping depends on what it reads and on whether its
    write succeeds. *)
Lemma parseField_snd f e e' :
  beat.GetValue e' (From f) = beat.GetValue e (From f) ->
  (forall val,
     common.same_outcome (common.Put (beat.Fields e) (target f) val)
                         (common.Put (beat.Fields e') (target f) val)) ->
  snd (parseField p (From f) (To f) e') = snd (parseField p (From f) (To f) e).
Proof.
  intros Hread Hput. unfold parseField, beat.PutValue. fold (target f). rewrite Hread.
  destruct (beat.GetValue e (From f)) as [err|[s| | |]]; simpl;
    try (now destruct (_ && _)); try reflexivity.
  destruct (url.Parse s) as [err|u]; [reflexivity|].
  specialize (Hput (VMap (components u))). unfold common.same_outcome in Hput.
  destruct (common.Put (beat.Fields e) _ _), (common.Put (beat.Fields e') _ _);
    simpl; try contradiction; congruence.
Qed.

Lemma errors_of_cons f rest e :
  errors_of p (f :: rest) e
  = match snd (parseField p (From f) (To f) e) with
    | Some err => err :: errors_of p rest (apply_field p e f)
    | None => errors_of p rest (apply_field p e f)
    end.
Proof.
  unfold apply_field. simpl.
  now destruct (parseField p (From f) (To f) e) as [e1 [err|]].
Qed.

(** A list of independent mappings, run on an event on which some of its
    own writes have been tried already, leaves the event it leaves
    without them, and returns the same errors. *)
Lemma run_again fields e ws :
  independent fields = true ->
  incl ws (writes p fields e) ->
  fold_left (apply_field p) fields (fold_left try_put ws e)
  = fold_left (apply_field p) fields e /\
  errors_of p fields (fold_left try_put ws e) = errors_of p fields e.
Proof.
  revert e ws. induction fields as [|f rest IH]; intros e ws Hind Hws.
  - simpl in Hws. destruct ws as [|w ws]; [now split|].
    now elim (Hws w (or_introl eq_refl)).
  - apply independent_cons in Hind as (Hind & Hself & Hrest).
    assert (Hw : forall w, In w ws ->
                   common.overlap (fst w) (From f) = false /\
                   (fst w = target f \/ common.overlap (fst w) (target f) = false)).
    { intros w Hin. destruct (writes_target _ _ _ (Hws w Hin)) as (g & [<- | Hg] & ->).
      - split; [exact Hself|now left].
      - apply (Hrest g Hg). }
    set (e' := fold_left try_put ws e).
    assert (Hread : beat.GetValue e' (From f) = beat.GetValue e (From f)).
    { apply fold_try_put_other. intros w Hin. apply (Hw w Hin). }
    assert (Hat : url_at e' f = url_at e f) by (unfold url_at; now rewrite Hread).
    assert (Herr : snd (parseField p (From f) (To f) e')
                   = snd (parseField p (From f) (To f) e)).
    { apply parseField_snd; [exact Hread|].
      intros val. apply fold_try_put_outcome. intros w Hin. apply (Hw w Hin). }
    rewrite !errors_of_cons, Herr. cbn [fold_left].
    assert (Hnext :
              fold_left (apply_field p) rest (apply_field p e' f)
              = fold_left (apply_field p) rest (apply_field p e f) /\
              errors_of p rest (apply_field p e' f)
              = errors_of p rest (apply_field p e f)).
    { rewrite (apply_field_try_put f e'), Hat.
      cbn [writes] in Hws. rewrite (apply_field_try_put f e) in Hws |- *.
      destruct (url_at e f) as [u|].
      - unfold e'. rewrite try_put_fold by (intros w Hin; apply (Hw w Hin)).
        apply IH; [exact Hind|].
        intros w Hin. apply List.filter_In in Hin as [Hin Hne].
        destruct (Hws w Hin) as [<- | H]; [|exact H].
        simpl in Hne. now rewrite String.eqb_refl in Hne.
      - apply IH; assumption. }
    destruct Hnext as [H1 H2]. rewrite H1, H2. split; reflexivity.
Qed.

End Twice.

(** C8, as the code has it.  Let the target of no mapping overlap the path
    it reads or a path an earlier mapping reads, and let the targets of
    two mappings be the same path or not overlap.  When [Run] returns no
    error on an event, [Run] on the event it returned gives that same
    event back, with no error and the same log. *)
Theorem Run_twice
    (txt : error -> string) (p : urlParse) (event event' : beat.Event)
    (log : list string) :
  independent (Fields (config p)) = true ->
  Run txt p event = (event', None, log) ->
  Run txt p event' = (event', None, log).
Proof.
  intros Hind Hrun. apply Run_no_error in Hrun as (-> & -> & Herrs).
  destruct (run_again p _ event (writes p (Fields (config p)) event) Hind
              (incl_refl _)) as [Hfix Hsame].
  rewrite fold_writes in Hfix, Hsame.
  unfold Run. destruct (FailOnError (config p)) eqn:Hs.
  - rewrite Run_loop_strict by exact Hs.
    rewrite Hsame, (Herrs eq_refl), Hfix. reflexivity.
  - rewrite Run_loop_best_effort by exact Hs. simpl.
    now rewrite Hsame, Hfix.
Qed.
(** ** Construction *)

Lemma unpack_entries_lacks_from l entry :
  In entry l -> lacks_from entry -> exists err, ucfg.unpack_entries l = inl err.
Proof.
  induction l as [|x l IH]; [intros []|].
  intros [-> | Hin] Hl; simpl.
  - unfold ucfg.unpack_fromTo. destruct entry; eauto.
    unfold ucfg.unpack_string. rewrite (Hl d eq_refl). eauto.
  - destruct (ucfg.unpack_fromTo x); [eauto|].
    destruct (IH Hin Hl) as [err ->]. eauto.
Qed.

Lemma AllowedFields_unexpected (fields : list string) (cfg : gmap string raw) k :
  is_Some (cfg !! k) -> ~ In k fields ->
  exists err, checks.AllowedFields fields cfg = Some err.
Proof.
  intros [v Hv] Hk. unfold checks.AllowedFields.
  destruct (List.find _ _) as [field|] eqn:E; [eauto|].
  exfalso. eapply find_none with (x := k) in E.
  - apply negb_false_iff, existsb_exists in E as (x & Hx & Heq).
    apply String.eqb_eq in Heq. now subst x.
  - unfold checks.GetFields. apply in_map_iff. exists (k, v). split; [reflexivity|].
    apply list_elem_of_In, elem_of_map_to_list, Hv.
Qed.

Lemma ConfigChecked_inr {P : Type} constr checks (cfg : gmap string raw) (x : P) :
  checks.ConfigChecked constr checks cfg = inr x -> constr cfg = inr x.
Proof. unfold checks.ConfigChecked. now destruct (checks.checkAll checks cfg). Qed.

Lemma ConfigChecked_inl {P : Type} (constr : gmap string raw -> ConfigurationError + P)
    checks (cfg : gmap string raw) err :
  constr cfg = inl err -> exists err', checks.ConfigChecked constr checks cfg = inl err'.
Proof. unfold checks.ConfigChecked. intros ->. destruct (checks.checkAll checks cfg); eauto. Qed.

(** C7, as the code has it (construction).  [New] returns a
    configuration error when [fields] is absent, is the empty list, or
    has an entry without [from], and so does the constructor that [init]
    registers under the name urlparse, which is [New] behind
    [checks.ConfigChecked].  It is that constructor, not [New], that
    returns an error when the configuration has a key other than
    [fields], [ignore_missing] and [fail_on_error].  When either returns
    a processor, its [ignore_missing] is false and its [fail_on_error] is
    true unless the configuration sets them. *)
Theorem construction_validates (c : gmap string raw) :
  (c !! "fields" = None \/ c !! "fields" = Some (CList []) \/
   (exists l entry, c !! "fields" = Some (CList l) /\ In entry l /\ lacks_from entry) ->
   (exists err, New c = inl err) /\ (exists err, urlparse_plugin c = inl err)) /\
  ((exists k, is_Some (c !! k) /\
              ~ In k ["fields"; "ignore_missing"; "fail_on_error"]) ->
   exists err, urlparse_plugin c = inl err) /\
  (forall p, New c = inr p \/ urlparse_plugin c = inr p ->
     (c !! "ignore_missing" = None -> IgnoreMissing (config p) = false) /\
     (c !! "fail_on_error" = None -> FailOnError (config p) = true)).
Proof.
  split; [|split].
  - intros H.
    assert (HN : exists err, New c = inl err).
    { unfold New, ucfg.Unpack.
      destruct H as [-> | [-> | (l & entry & -> & Hin & Hl)]]; eauto.
      destruct (unpack_entries_lacks_from l entry Hin Hl) as [err ->].
      destruct l; eauto. }
    split; [exact HN|]. destruct HN as [err HN].
    eapply ConfigChecked_inl; eauto.
  - intros (k & Hk & Hn). unfold urlparse_plugin, checks.ConfigChecked. simpl.
    destruct (checks.RequireFields _ c); [eauto|].
    destruct (AllowedFields_unexpected _ c k Hk Hn) as [err ->]. eauto.
  - intros p Hp.
    assert (HN : New c = inr p).
    { destruct Hp as [Hp | Hp]; [exact Hp|]. now apply ConfigChecked_inr in Hp. }
    clear Hp. unfold New, ucfg.Unpack in HN.
    destruct (c !! "fields") as [[s|b|z|l|d]|]; try discriminate.
    destruct l as [|x l]; [discriminate|].
    destruct (ucfg.unpack_entries (x :: l)) as [err|fields]; [discriminate|].
    unfold ucfg.unpack_bool in HN.
    split; intros E; rewrite E in HN.
    + destruct (c !! "fail_on_error") as [[s|b|z|l'|d]|]; try discriminate;
        now injection HN as <-.
    + destruct (c !! "ignore_missing") as [[s|b|z|l'|d]|]; try discriminate;
        now injection HN as <-.
Qed.

(** * The properties at work *)

(** The mapping of [a] succeeds, that of [b] finds a number: the event
    comes back as it was given, with the diagnostic at [error.message],
    which can be written there. *)
Lemma Run_fail_on_error_restores_abc :
  Run sample_text
      (processor [mapping "a" ""; mapping "b" ""; mapping "c" ""] false true)
      event_abc
  = ({| beat.Fields :=
         attach_error_message (beat.Fields event_abc)
           (sample_text (ErrRun (ErrInvalidType (VInt 42)))) |},
     Some (ErrInvalidType (VInt 42)),
     [sample_text (ErrRun (ErrInvalidType (VInt 42)))]) /\
  beat.GetValue
    (event_of (Run sample_text
                 (processor [mapping "a" ""; mapping "b" ""; mapping "c" ""] false true)
                 event_abc))
    "error.message"
  = inr (VString (sample_text (ErrRun (ErrInvalidType (VInt 42))))) /\
  beat.GetValue
    (event_of (Run sample_text
                 (processor [mapping "a" ""; mapping "b" ""; mapping "c" ""] false true)
                 event_abc))
    "a"
  = beat.GetValue event_abc "a".
Proof.
  destruct (Run_fail_on_error_restores sample_text
              (processor [mapping "a" ""; mapping "b" ""; mapping "c" ""] false true)
              event_abc [mapping "a" ""] (mapping "b" "") [mapping "c" ""]
              (fst (parseField
                      (processor [mapping "a" ""; mapping "b" ""; mapping "c" ""]
                         false true)
                      "a" "" event_abc))
              (ErrInvalidType (VInt 42)))
    as (Hrun & Hframe & Hmsg & _).
  - reflexivity.
  - reflexivity.
  - vm_compute. reflexivity.
  - vm_compute. reflexivity.
  - split; [exact Hrun|]. split.
    + apply Hmsg. right. left. vm_compute. reflexivity.
    + apply Hframe. vm_compute. reflexivity.
Defined.

(** C1 as stated fails: [error] holds a string, nothing can be put at
    [error.message], and the event that comes back with the error is the
    event that came in, without a diagnostic. *)
Lemma Run_fail_on_error_without_diagnostic :
  Run sample_text (processor [mapping "b" ""] false true) event_b_error
  = (event_b_error, Some (ErrInvalidType (VInt 42)),
     [sample_text (ErrRun (ErrInvalidType (VInt 42)))]) /\
  beat.GetValue event_b_error "error.message"
  = inl (ErrExpectedMap (VString "boom")).
Proof. split; vm_compute; reflexivity. Qed.

(** The mappings of [a] and [c] leave their components, the mapping of
    [b] leaves a line in the log, and nothing is put at
    [error.message]. *)
Lemma Run_best_effort_abc :
  error_of (Run sample_text
              (processor [mapping "a" ""; mapping "b" ""; mapping "c" ""] false false)
              event_abc) = None /\
  beat.GetValue
    (event_of (Run sample_text
                 (processor [mapping "a" ""; mapping "b" ""; mapping "c" ""] false false)
                 event_abc)) "a"
  = inr (VMap (components url_a)) /\
  beat.GetValue
    (event_of (Run sample_text
                 (processor [mapping "a" ""; mapping "b" ""; mapping "c" ""] false false)
                 event_abc)) "c"
  = inr (VMap (components url_c)) /\
  In (sample_text (ErrRun (ErrInvalidType (VInt 42))))
     (snd (Run sample_text
             (processor [mapping "a" ""; mapping "b" ""; mapping "c" ""] false false)
             event_abc)) /\
  beat.GetValue
    (event_of (Run sample_text
                 (processor [mapping "a" ""; mapping "b" ""; mapping "c" ""] false false)
                 event_abc)) "error.message"
  = beat.GetValue event_abc "error.message".
Proof.
  destruct (Run_best_effort sample_text
              (processor [mapping "a" ""; mapping "b" ""; mapping "c" ""] false false)
              event_abc eq_refl)
    as (Hrun & Hfail & Hok & Hmsg).
  split; [now rewrite Hrun|]. split; [|split; [|split]].
  - refine (proj2 (Hok [] (mapping "a" "") [mapping "b" ""; mapping "c" ""]
                     url_a eq_refl _ _) _).
    + vm_compute. reflexivity.
    + vm_compute. reflexivity.
    + intros g [<- | [<- | []]]; vm_compute; reflexivity.
  - refine (proj2 (Hok [mapping "a" ""; mapping "b" ""] (mapping "c" "") []
                     url_c eq_refl _ _) _).
    + vm_compute. reflexivity.
    + vm_compute. reflexivity.
    + intros g [].
  - refine (proj2 (Hfail [mapping "a" ""] (mapping "b" "") [mapping "c" ""]
                     (ErrInvalidType (VInt 42)) eq_refl _)).
    vm_compute. reflexivity.
  - apply Hmsg. intros f [<- | [<- | [<- | []]]]; vm_compute; reflexivity.
Defined.

(** C3 as stated fails: a mapping whose target is [error.message] puts
    the components there, in best-effort mode as in strict mode, on an
    event that had nothing at [error.message]. *)
Lemma Run_best_effort_writes_error_message :
  beat.GetValue event_abc "error.message" = inl ErrKeyNotFound /\
  error_of (Run sample_text (processor [mapping "a" "error.message"] false false)
              event_abc) = None /\
  beat.GetValue
    (event_of (Run sample_text (processor [mapping "a" "error.message"] false false)
                 event_abc)) "error.message"
  = inr (VMap (components url_a)).
Proof. repeat split; vm_compute; reflexivity. Qed.


Lemma lookup_failure_is_not_ignored_scalar :
  parseField (processor [mapping "a.b" ""] true true) "a.b" "" event_a_scalar
  = (event_a_scalar, Some (ErrFetch "a.b" (ErrExpectedMap (VString "x")))).
Proof.
  refine (proj1 (lookup_failure_is_not_ignored sample_text
                   (processor [mapping "a.b" ""] true true)
                   "a.b" "" event_a_scalar (ErrExpectedMap (VString "x")) _ _)).
  - vm_compute. reflexivity.
  - reflexivity.
Defined.

(** C10 as stated fails: [request] holds the empty string, the target
    [request.url] would have to go through that string, and the mapping
    returns an error. *)
Lemma empty_string_unwritable_target :
  beat.GetValue event_empty_request "request" = inr (VString "") /\
  parseField (processor [mapping "request" "request.url"] false true)
             "request" "request.url" event_empty_request
  = (event_empty_request,
     Some (ErrPutValue url.new_URL "request.url" (ErrExpectedMap (VString "")))).
Proof. split; vm_compute; reflexivity. Qed.

Lemma empty_string_is_parsed_request :
  url.Parse "" = inr url.new_URL /\
  exists event',
    parseField (processor [mapping "request" ""] false true) "request" ""
               event_empty_request = (event', None) /\
    beat.GetValue event' (target (mapping "request" "")) = inr (VMap empty_components).
Proof.
  refine (empty_string_is_parsed (processor [mapping "request" ""] false true)
            "request" "" event_empty_request _ _).
  - vm_compute. reflexivity.
  - left. reflexivity.
Defined.

(** C2 as stated fails: both mappings find a URL at [a] in the event that
    comes in, but the first one replaces it by its components, and the
    second one then finds a mapping where it wants a string. *)
Lemma Run_fails_on_rewritten_source :
  url_at event_abc (mapping "a" "") <> None /\
  url_at event_abc (mapping "a" "b") <> None /\
  error_of (Run sample_text
              (processor [mapping "a" ""; mapping "a" "b"] false true) event_abc)
  <> None.
Proof. repeat split; vm_compute; discriminate. Qed.

(** Two mappings write at [t], the second one last; a third writes at
    [x.y]. *)
Lemma Run_writes_components_shared :
  exists event',
    Run sample_text (processor mappings_shared false true) event_abc
    = (event', None, []) /\
    (forall f, In f (Fields (config (processor mappings_shared false true))) ->
       exists g u,
         writer (Fields (config (processor mappings_shared false true))) (target f)
         = Some g /\
         url_at event_abc g = Some u /\
         beat.GetValue event' (target f) = inr (VMap (components u)) /\
         dom (components u) = component_keys) /\
    (forall key,
       (forall f, In f (Fields (config (processor mappings_shared false true))) ->
          common.overlap (target f) key = false) ->
       beat.GetValue event' key = beat.GetValue event_abc key).
Proof.
  refine (Run_writes_components sample_text (processor mappings_shared false true)
            event_abc _ _ _).
  - vm_compute. reflexivity.
  - intros f [<- | [<- | [<- | []]]]; vm_compute; discriminate.
  - intros f [<- | [<- | [<- | []]]]; vm_compute; reflexivity.
Defined.

(** Targets that lead into one another are another matter: with [t] and
    [t.extra] no mapping fails, and [t] ends up with a ninth key. *)
Lemma Run_nested_targets :
  error_of (Run sample_text
              (processor [mapping "a" "t"; mapping "c" "t.extra"] false true)
              event_abc) = None /\
  beat.GetValue
    (event_of (Run sample_text
                 (processor [mapping "a" "t"; mapping "c" "t.extra"] false true)
                 event_abc)) "t.extra"
  = inr (VMap (components url_c)).
Proof. split; vm_compute; reflexivity. Qed.

(** C8 as stated fails, on the scenario of the spec: the first [Run]
    replaces [request] by its components, the second finds no string
    there; in strict mode it returns an error and an event that carries
    [error.message]. *)
Lemma Run_twice_differs :
  error_of (Run sample_text (processor [mapping "request" "request"] false true)
              event_request) = None /\
  event_of (Run sample_text (processor [mapping "request" "request"] false true)
              (event_of (Run sample_text
                           (processor [mapping "request" "request"] false true)
                           event_request)))
  <> event_of (Run sample_text (processor [mapping "request" "request"] false true)
                 event_request).
Proof.
  split; [vm_compute; reflexivity|].
  intros H. apply (f_equal (fun e => beat.GetValue e "error.message")) in H.
  vm_compute in H. discriminate.
Qed.

(** Two mappings write at [t], and [Run] on the event [Run] returned
    gives it back. *)
Lemma Run_twice_shared :
  Run sample_text (processor mappings_shared false true)
      (event_of (Run sample_text (processor mappings_shared false true) event_abc))
  = (event_of (Run sample_text (processor mappings_shared false true) event_abc),
     None, []).
Proof.
  refine (Run_twice sample_text (processor mappings_shared false true)
            event_abc _ [] _ _).
  - vm_compute. reflexivity.
  - vm_compute. reflexivity.
Defined.

(** Targets that lead into one another are another matter: the first
    [Run] writes at [t.scheme.z] and then over [t]; the second finds a
    string at [t.scheme] and fails. *)
Lemma Run_twice_nested_targets :
  error_of (Run sample_text
              (processor [mapping "c" "t.scheme.z"; mapping "a" "t"] false true)
              event_abc) = None /\
  error_of (Run sample_text
              (processor [mapping "c" "t.scheme.z"; mapping "a" "t"] false true)
              (event_of (Run sample_text
                           (processor [mapping "c" "t.scheme.z"; mapping "a" "t"]
                              false true)
                           event_abc)))
  = Some (ErrPutValue url_c "t.scheme.z" (ErrExpectedMap (VString "http"))).
Proof. split; vm_compute; reflexivity. Qed.

(** A target over the source of an earlier mapping is another such
    case: the second [Run] finds the components where the first found a
    string. *)
Lemma Run_twice_target_over_source :
  error_of (Run sample_text (processor [mapping "a" "x"; mapping "c" "a"] false true)
              event_abc) = None /\
  error_of (Run sample_text (processor [mapping "a" "x"; mapping "c" "a"] false true)
              (event_of (Run sample_text
                           (processor [mapping "a" "x"; mapping "c" "a"] false true)
                           event_abc)))
  = Some (ErrInvalidType (VMap (components url_c))).
Proof. split; vm_compute; reflexivity. Qed.

Lemma construction_validates_examples :
  (exists err, New ∅ = inl err) /\
  (exists err, urlparse_plugin raw_extra_key = inl err) /\
  IgnoreMissing (config (processor [mapping "request" ""] false true)) = false /\
  FailOnError (config (processor [mapping "request" ""] false true)) = true.
Proof.
  split; [|split].
  - refine (proj1 (proj1 (construction_validates ∅) _)). left. reflexivity.
  - refine (proj1 (proj2 (construction_validates raw_extra_key)) _).
    exists "target". split.
    + vm_compute. eauto.
    + vm_compute. intros [H | [H | [H | []]]]; discriminate.
  - destruct (proj2 (proj2 (construction_validates raw_minimal))
                (processor [mapping "request" ""] false true)) as [H1 H2].
    + left. vm_compute. reflexivity.
    + split; [apply H1|apply H2]; reflexivity.
Defined.


(** C7 as stated fails for [New]: a configuration with the key [target],
    which no option has, gives a processor; the key is not looked at. *)
Lemma New_accepts_unknown_key :
  raw_extra_key !! "target" = Some (CString "url") /\
  New raw_extra_key = inr (processor [mapping "request" ""] false true).
Proof. split; vm_compute; reflexivity. Qed.

(** * Further properties of the code *)

(** ** One mapping: [parseField] *)

(** X1.  A mapping that returns no error has done one of two things.
    Either [ignore_missing] is set and the lookup of [from] ended in
    [ErrKeyNotFound], and the event is as it was; or [from] held a string
    that parses, and the target now reads as the mapping of the eight
    components of that URL. *)
Theorem parseField_success
    (p : urlParse) (from to : string) (event event' : beat.Event) :
  parseField p from to event = (event', None) ->
  (event' = event /\ IgnoreMissing (config p) = true /\
   beat.GetValue event from = inl ErrKeyNotFound) \/
  (exists s u,
     beat.GetValue event from = inr (VString s) /\ url.Parse s = inr u /\
     beat.GetValue event' (target (mapping from to)) = inr (VMap (components u)) /\
     dom (components u) = component_keys).
Proof.
  unfold parseField.
  destruct (beat.GetValue event from) as [err|[s|z|b|m]] eqn:Eg; try discriminate.
  - destruct (IgnoreMissing (config p)); [|discriminate]. simpl.
    destruct err; try discriminate. intros [= <-]. now left.
  - destruct (url.Parse s) as [err|u] eqn:Eu; [discriminate|].
    change (if String.eqb to "" then from else to) with (target (mapping from to)).
    unfold beat.PutValue.
    destruct (common.Put _ _ _) as [err|m1] eqn:Ep; [discriminate|].
    intros [= <-]. right. exists s, u. split; [reflexivity|]. split; [exact Eu|].
    split; [|apply dom_components].
    unfold beat.GetValue. simpl. eapply GetValue_Put; eauto.
Qed.

(** X2.  A mapping touches its target and nothing else: whatever it
    returns, a key that does not overlap the target reads afterwards as
    it did before; and when it returns an error the event is as it was. *)
Theorem parseField_frame
    (p : urlParse) (from to : string) (event : beat.Event) :
  (forall key,
     common.overlap (target (mapping from to)) key = false ->
     beat.GetValue (fst (parseField p from to event)) key = beat.GetValue event key) /\
  (snd (parseField p from to event) <> None ->
   fst (parseField p from to event) = event).
Proof.
  split.
  - intros key Ho. apply (apply_field_other p (mapping from to) event key Ho).
  - destruct (parseField p from to event) as [event' [err|]] eqn:E; simpl.
    + intros _. eapply parseField_error; eauto.
    + intros H. now elim H.
Qed.

(** X3.  A mapping that writes over its own source, [to] being empty or
    equal to [from], cannot fail at the write: when [from] holds a string
    that parses, it returns no error. *)
Theorem parseField_in_place
    (p : urlParse) (from to : string) (event : beat.Event) (s : string) (u : url.URL) :
  to = "" \/ to = from ->
  beat.GetValue event from = inr (VString s) ->
  url.Parse s = inr u ->
  exists event',
    parseField p from to event = (event', None) /\
    beat.GetValue event' from = inr (VMap (components u)).
Proof.
  intros Hto Hg Hu.
  assert (Ht : target (mapping from to) = from).
  { destruct (target_cases from to) as [[H _] | [H Hn]]; [exact H|].
    unfold mapping in *. rewrite H. destruct Hto; congruence. }
  destruct (Put_of_GetValue _ _ _ (VMap (components u)) Hg) as [m1 Hm1].
  exists {| beat.Fields := m1 |}. unfold parseField. rewrite Hg, Hu.
  change (if String.eqb to "" then from else to) with (target (mapping from to)).
  rewrite Ht. unfold beat.PutValue. rewrite Hm1. split; [reflexivity|].
  unfold beat.GetValue. simpl. eapply GetValue_Put; eauto.
Qed.

(** ** The whole plan: [Run] *)

Section RunFacts.

Variable txt : error -> string.

Implicit Types (p : urlParse) (event : beat.Event) (f : fromTo).

Lemma succeed_all_fold p fields event event' :
  succeed_all p fields event = Some event' ->
  event' = fold_left (apply_field p) fields event /\ errors_of p fields event = [].
Proof.
  revert event. induction fields as [|f fields IH]; intros event; simpl.
  - now intros [= <-].
  - unfold apply_field at 2.
    destruct (parseField p (From f) (To f) event) as [e1 [err|]]; [discriminate|].
    apply IH.
Qed.

Lemma errors_of_nil p fields event :
  errors_of p fields event = [] ->
  succeed_all p fields event = Some (fold_left (apply_field p) fields event).
Proof.
  revert event. induction fields as [|f fields IH]; intros event; simpl.
  - reflexivity.
  - unfold apply_field at 2.
    destruct (parseField p (From f) (To f) event) as [e1 [err|]]; [discriminate|].
    apply IH.
Qed.

(** The first error of a list of mappings is the error of a mapping
    before which every mapping returned none. *)
Lemma first_failure p fields event err errs :
  errors_of p fields event = err :: errs ->
  exists pre f post event_i,
    fields = (pre ++ f :: post)%list /\
    succeed_all p pre event = Some event_i /\
    parseField p (From f) (To f) event_i = (event_i, Some err).
Proof.
  revert event. induction fields as [|f fields IH]; intros event; simpl; [discriminate|].
  destruct (parseField p (From f) (To f) event) as [e1 [e|]] eqn:E.
  - intros [= -> _]. exists [], f, fields, event. simpl.
    apply parseField_error in E as E'. subst e1. auto.
  - intros H. destruct (IH _ H) as (pre & g & post & event_i & -> & H2 & H3).
    exists (f :: pre), g, post, event_i. simpl. rewrite E. auto.
Qed.

Lemma Run_succeed p event event' :
  succeed_all p (Fields (config p)) event = Some event' ->
  Run txt p event = (event', None, []).
Proof.
  intros H. unfold Run. rewrite <- (app_nil_r (Fields (config p))).
  now rewrite (Run_loop_succeed txt p _ _ [] event event' [] H).
Qed.

Lemma Put_keeps_keys (m : gmap string value) key val m1 k :
  common.Put m key val = inr m1 -> is_Some (m !! k) -> is_Some (m1 !! k).
Proof.
  intros H Hk. apply Put_inr_local in H as (X & Y & _ & -> & _).
  destruct (decide (X = k)) as [-> | Hn].
  - rewrite lookup_insert_eq. eauto.
  - now rewrite lookup_insert_ne.
Qed.

Lemma apply_field_keeps_keys p f event k :
  is_Some (beat.Fields event !! k) ->
  is_Some (beat.Fields (apply_field p event f) !! k).
Proof.
  intros Hk. destruct (parseField_event p f event) as [-> | [u Hu]]; [exact Hk|].
  unfold beat.PutValue in Hu.
  destruct (common.Put (beat.Fields event) (target f) _) as [e|m] eqn:E; [discriminate|].
  injection Hu as <-. simpl. eapply Put_keeps_keys; eauto.
Qed.

Lemma fold_apply_field_keeps_keys p fields event k :
  is_Some (beat.Fields event !! k) ->
  is_Some (beat.Fields (fold_left (apply_field p) fields event) !! k).
Proof.
  revert event. induction fields as [|f fields IH]; intros event Hk; simpl.
  - exact Hk.
  - apply IH, apply_field_keeps_keys, Hk.
Qed.

Lemma attach_error_message_keeps_keys (m : gmap string value) msg k :
  is_Some (m !! k) -> is_Some (attach_error_message m msg !! k).
Proof.
  intros Hk. unfold attach_error_message.
  destruct (common.Put m "error.message" (VString msg)) as [e|m1] eqn:E; [exact Hk|].
  eapply Put_keeps_keys; eauto.
Qed.

End RunFacts.

(** X4.  Strict mode is all or nothing.  With [fail_on_error] set, [Run]
    has two outcomes and no third.  Either every mapping returned no
    error, and [Run] returns no error, an empty log and the event the
    mappings made one after the other.  Or some mapping is the first to
    return an error, on the event the mappings before it made, and [Run]
    returns that very error, one log line, and the fields it was given
    with the diagnostic put at [error.message]. *)
Theorem Run_strict_all_or_nothing
    (txt : error -> string) (p : urlParse) (event : beat.Event) :
  FailOnError (config p) = true ->
  ((exists event',
      succeed_all p (Fields (config p)) event = Some event' /\
      Run txt p event = (event', None, [])) \/
   (exists pre f post event_i err,
      Fields (config p) = (pre ++ f :: post)%list /\
      succeed_all p pre event = Some event_i /\
      parseField p (From f) (To f) event_i = (event_i, Some err) /\
      succeed_all p (Fields (config p)) event = None /\
      Run txt p event
      = ({| beat.Fields :=
             attach_error_message (beat.Fields event) (txt (ErrRun err)) |},
         Some err, [txt (ErrRun err)]))).
Proof.
  intros Hs. unfold Run. rewrite Hs, Run_loop_strict by exact Hs.
  destruct (errors_of p (Fields (config p)) event) as [|err errs] eqn:E.
  - left. eexists. split; [apply errors_of_nil, E|reflexivity].
  - right. destruct (first_failure _ _ _ _ _ E) as (pre & f & post & event_i & H1 & H2 & H3).
    exists pre, f, post, event_i, err. repeat split; try assumption.
    destruct (succeed_all p (Fields (config p)) event) as [e'|] eqn:Ea; [|reflexivity].
    apply succeed_all_fold in Ea as [_ Ea]. congruence.
Qed.

(** X5.  The two modes differ only when a mapping fails: when every
    mapping returns no error, [Run] returns the same event, no error and
    an empty log whether [fail_on_error] is set or not. *)
Theorem Run_modes_agree
    (txt : error -> string) (fields : list fromTo) (ignore_missing : bool)
    (event event' : beat.Event) :
  succeed_all (processor fields ignore_missing true) fields event = Some event' ->
  Run txt (processor fields ignore_missing true) event = (event', None, []) /\
  Run txt (processor fields ignore_missing false) event = (event', None, []).
Proof.
  intros H. split.
  - now apply Run_succeed.
  - apply Run_succeed. simpl.
    now rewrite (succeed_all_config (processor fields ignore_missing true)
                   (processor fields ignore_missing false)) by reflexivity.
Qed.

(** X6.  In best-effort mode plans compose: running the mappings of one
    list and then, on the event returned, those of another is running the
    two lists as one, and the log of the whole is the two logs in a row. *)
Theorem Run_best_effort_app
    (txt : error -> string) (pre post : list fromTo) (ignore_missing : bool)
    (event : beat.Event) :
  Run txt (processor (pre ++ post) ignore_missing false) event
  = (event_of (Run txt (processor post ignore_missing false)
                 (event_of (Run txt (processor pre ignore_missing false) event))),
     None,
     (snd (Run txt (processor pre ignore_missing false) event) ++
      snd (Run txt (processor post ignore_missing false)
             (event_of (Run txt (processor pre ignore_missing false) event))))%list).
Proof.
  assert (HR : forall fields e,
             Run txt (processor fields ignore_missing false) e
             = (fold_left (apply_field (processor pre ignore_missing false)) fields e,
                None,
                map (fun err => txt (ErrRun err))
                    (errors_of (processor pre ignore_missing false) fields e))).
  { intros fields e. unfold Run. simpl.
    rewrite (Run_loop_config txt (processor pre ignore_missing false)
               (processor fields ignore_missing false)) by reflexivity.
    now rewrite Run_loop_best_effort. }
  rewrite !HR. unfold event_of. simpl. rewrite fold_left_app, <- map_app.
  now rewrite errors_of_app.
Qed.

(** X7.  [Run] never takes a field away: a key present at the top level
    of the event it is given is present at the top level of the event it
    returns, in strict mode as in best-effort mode, error or no error. *)
Theorem Run_keeps_top_level_keys
    (txt : error -> string) (p : urlParse) (event : beat.Event) (k : string) :
  is_Some (beat.Fields event !! k) ->
  is_Some (beat.Fields (event_of (Run txt p event)) !! k).
Proof.
  intros Hk. unfold Run. destruct (FailOnError (config p)) eqn:Hs.
  - rewrite Run_loop_strict by exact Hs.
    destruct (errors_of p (Fields (config p)) event) as [|err errs]; unfold event_of; simpl.
    + now apply fold_apply_field_keeps_keys.
    + now apply attach_error_message_keeps_keys.
  - rewrite Run_loop_best_effort by exact Hs. unfold event_of. simpl.
    now apply fold_apply_field_keeps_keys.
Qed.

(** X8.  An empty [to] is a shorthand and nothing more: writing the
    target of every mapping out in its [to] gives a processor that
    returns, on every event, what the original returns. *)
Theorem Run_resolved
    (txt : error -> string) (p : urlParse) (event : beat.Event) :
  Run txt (resolved p) event = Run txt p event.
Proof.
  assert (Ht : forall f,
             (if String.eqb (target f) "" then From f else target f) = target f).
  { intros f. destruct (String.eqb_spec (target f) "") as [E|_]; [|reflexivity].
    rewrite E. revert E. unfold target.
    now destruct (String.eqb_spec (To f) ""). }
  assert (Hpf : forall f e,
             parseField (resolved p) (From f) (target f) e
             = parseField p (From f) (To f) e).
  { intros f e. unfold parseField. rewrite Ht. reflexivity. }
  unfold Run. simpl. generalize (@nil string) as log.
  generalize (if FailOnError (config p) then common.Clone (beat.Fields event) else ∅)
    as backup.
  generalize event as e.
  induction (Fields (config p)) as [|f fields IH]; intros e backup log; simpl.
  - reflexivity.
  - rewrite Hpf. destruct (parseField p (From f) (To f) e) as [e1 [err|]].
    + destruct (FailOnError (config p)); [reflexivity|apply IH].
    + apply IH.
Qed.

(** X9.  Events that have none of the sources pass through unchanged
    under [ignore_missing]: when the lookup of every [from] ends in
    [ErrKeyNotFound], [Run] returns the event as it was, no error and an
    empty log, in both modes. *)
Theorem Run_all_missing
    (txt : error -> string) (p : urlParse) (event : beat.Event) :
  IgnoreMissing (config p) = true ->
  (forall f, In f (Fields (config p)) ->
     beat.GetValue event (From f) = inl ErrKeyNotFound) ->
  Run txt p event = (event, None, []).
Proof.
  intros Hi Hm. unfold Run. rewrite <- (app_nil_r (Fields (config p))).
  apply (Run_loop_succeed txt p _ _ [] event event []).
  induction (Fields (config p)) as [|f fields IH]; simpl; [reflexivity|].
  unfold parseField. rewrite (Hm f (or_introl eq_refl)), Hi. simpl.
  apply IH. intros g Hg. apply Hm. now right.
Qed.

(** ** Construction: [New] and [init] *)

Lemma unpack_fromTo_from entry f :
  ucfg.unpack_fromTo entry = inr f -> From f <> "".
Proof.
  unfold ucfg.unpack_fromTo, ucfg.unpack_string.
  destruct entry as [s|b|z|l|d]; try discriminate.
  destruct (d !! "from") as [[s|b|z|l|d']|]; try discriminate. simpl.
  destruct (String.eqb_spec s "") as [->|Hn]; [discriminate|].
  destruct (d !! "to") as [[s'|b|z|l|d']|]; try discriminate; now intros [= <-].
Qed.

Lemma unpack_entries_from l fields :
  ucfg.unpack_entries l = inr fields ->
  List.length fields = List.length l /\ forall f, In f fields -> From f <> "".
Proof.
  revert fields. induction l as [|entry l IH]; intros fields; simpl.
  - intros [= <-]. split; [reflexivity|intros f []].
  - destruct (ucfg.unpack_fromTo entry) as [err|f] eqn:Ef; [discriminate|].
    destruct (ucfg.unpack_entries l) as [err|fs]; [discriminate|].
    intros [= <-]. destruct (IH fs eq_refl) as [Hl Hf]. split; [simpl; now rewrite Hl|].
    intros g [<- | Hg]; [eapply unpack_fromTo_from; eauto|now apply Hf].
Qed.

Lemma unpack_entries_raw fields :
  (forall f, In f fields -> From f <> "") ->
  ucfg.unpack_entries (map raw_of_fromTo fields) = inr fields.
Proof.
  induction fields as [|f fields IH]; intros H; [reflexivity|].
  assert (Hf : ucfg.unpack_fromTo (raw_of_fromTo f) = inr f).
  { unfold ucfg.unpack_fromTo, ucfg.unpack_string, raw_of_fromTo.
    rewrite lookup_insert_eq. simpl.
    destruct (String.eqb_spec (From f) "") as [E|_];
      [now elim (H f (or_introl eq_refl))|].
    rewrite lookup_insert_ne by discriminate. rewrite lookup_insert_eq.
    now destruct f. }
  change (ucfg.unpack_entries (map raw_of_fromTo (f :: fields)))
    with (match ucfg.unpack_fromTo (raw_of_fromTo f) with
          | inl err => inl err
          | inr f0 =>
              match ucfg.unpack_entries (map raw_of_fromTo fields) with
              | inl err => inl err
              | inr fs => inr (f0 :: fs)
              end
          end).
  rewrite Hf, IH; [reflexivity|]. intros g Hg. apply H. now right.
Qed.

Lemma AllowedFields_None (fields : list string) (cfg : gmap string raw) :
  checks.AllowedFields fields cfg = None <->
  forall k, is_Some (cfg !! k) -> In k fields.
Proof.
  unfold checks.AllowedFields, checks.GetFields. split.
  - destruct (List.find _ _) as [field|] eqn:E; [discriminate|]. intros _ k [v Hv].
    eapply find_none with (x := k) in E.
    + apply negb_false_iff, existsb_exists in E as (x & Hx & Heq).
      apply String.eqb_eq in Heq. now subst x.
    + apply in_map_iff. exists (k, v). split; [reflexivity|].
      apply list_elem_of_In, elem_of_map_to_list, Hv.
  - intros H. destruct (List.find _ _) as [field|] eqn:E; [|reflexivity].
    apply find_some in E as [Hin Hf]. exfalso.
    apply in_map_iff in Hin as ([k v] & <- & Hkv).
    apply list_elem_of_In, elem_of_map_to_list in Hkv. simpl in Hf.
    apply negb_true_iff in Hf.
    assert (Hk : In k fields) by (apply H; eauto).
    assert (Ht : existsb (String.eqb k) fields = true)
      by (apply existsb_exists; exists k; split; [exact Hk|apply String.eqb_refl]).
    congruence.
Qed.

(** X10.  Every processor that construction returns, through [New] or
    through the constructor [init] registers, has at least one mapping
    and no mapping with an empty [from]; so no mapping of it has an empty
    target. *)
Theorem New_well_formed (c : gmap string raw) (p : urlParse) :
  New c = inr p \/ urlparse_plugin c = inr p ->
  well_formed (config p) /\
  forall f, In f (Fields (config p)) -> target f <> "".
Proof.
  intros Hp.
  assert (HN : New c = inr p).
  { destruct Hp as [Hp | Hp]; [exact Hp|]. now apply ConfigChecked_inr in Hp. }
  clear Hp. unfold New, ucfg.Unpack in HN.
  destruct (c !! "fields") as [[s|b|z|l|d]|]; try discriminate.
  destruct l as [|x l]; [discriminate|].
  destruct (ucfg.unpack_entries (x :: l)) as [err|fields] eqn:E; [discriminate|].
  simpl in HN.
  destruct (ucfg.unpack_bool c "ignore_missing" false); [discriminate|].
  destruct (ucfg.unpack_bool c "fail_on_error" true); [discriminate|].
  injection HN as <-. simpl.
  apply unpack_entries_from in E as [Hl Hf].
  assert (Hw : fields <> [] /\ forall f, In f fields -> From f <> "").
  { split; [|exact Hf]. intros ->. discriminate Hl. }
  split; [exact Hw|]. intros f Hin. unfold target.
  destruct (String.eqb_spec (To f) ""); [now apply Hf|assumption].
Qed.

(** X11.  Construction reads back what a configuration spells out: from
    the raw configuration that lists the mappings of a well-formed
    processor configuration with their [from] and [to] and gives both
    flags, [New] and the registered constructor return the processor
    with exactly that configuration, the mappings in the same order. *)
Theorem New_raw_of (c : urlParseConfig) :
  well_formed c ->
  New (raw_of c) = inr {| config := c |} /\
  urlparse_plugin (raw_of c) = inr {| config := c |}.
Proof.
  intros [Hne Hf].
  assert (HN : New (raw_of c) = inr {| config := c |}).
  { unfold New, ucfg.Unpack, raw_of. rewrite lookup_insert_eq.
    destruct c as [fields i s]. simpl in *.
    destruct fields as [|f fields]; [now elim Hne|].
    change (CList (raw_of_fromTo f :: map raw_of_fromTo fields))
      with (CList (map raw_of_fromTo (f :: fields))).
    rewrite (unpack_entries_raw (f :: fields) Hf). simpl.
    unfold ucfg.unpack_bool.
    rewrite lookup_insert_ne by discriminate. rewrite lookup_insert_eq.
    rewrite lookup_insert_ne by discriminate.
    rewrite lookup_insert_ne by discriminate. rewrite lookup_insert_eq.
    reflexivity. }
  split; [exact HN|].
  unfold urlparse_plugin, checks.ConfigChecked. simpl.
  assert (HR : checks.RequireFields ["fields"] (raw_of c) = None).
  { unfold checks.RequireFields, raw_of. simpl. rewrite lookup_insert_eq.
    rewrite bool_decide_eq_true_2 by eauto. reflexivity. }
  assert (HA : checks.AllowedFields ["fields"; "ignore_missing"; "fail_on_error"]
                 (raw_of c) = None).
  { apply AllowedFields_None. intros k [v Hv]. unfold raw_of in Hv.
    destruct (decide (k = "fields")) as [->|H1]; [now left|].
    rewrite lookup_insert_ne in Hv by congruence.
    destruct (decide (k = "ignore_missing")) as [->|H2]; [right; now left|].
    rewrite lookup_insert_ne in Hv by congruence.
    destruct (decide (k = "fail_on_error")) as [->|H3]; [right; right; now left|].
    rewrite lookup_insert_ne in Hv by congruence. now rewrite lookup_empty in Hv. }
  now rewrite HR, HA.
Qed.

(** X12.  The constructor [init] registers accepts exactly the
    configurations that [New] accepts and that have no key other than
    [fields], [ignore_missing] and [fail_on_error], and it returns the
    processor [New] returns. *)
Theorem urlparse_plugin_iff (c : gmap string raw) (p : urlParse) :
  urlparse_plugin c = inr p <->
  New c = inr p /\
  forall k, is_Some (c !! k) -> In k ["fields"; "ignore_missing"; "fail_on_error"].
Proof.
  unfold urlparse_plugin, checks.ConfigChecked. cbn [checks.checkAll]. split.
  - destruct (checks.RequireFields ["fields"] c); [discriminate|].
    destruct (checks.AllowedFields _ c) eqn:E; [discriminate|].
    intros HN. split; [exact HN|]. apply (proj1 (AllowedFields_None _ _) E).
  - intros [HN Hk]. apply AllowedFields_None in Hk. rewrite Hk.
    assert (HR : checks.RequireFields ["fields"] c = None).
    { unfold checks.RequireFields. cbn [List.find].
      unfold New, ucfg.Unpack in HN.
      destruct (c !! "fields") as [x|]; [|discriminate].
      rewrite bool_decide_eq_true_2 by eauto. reflexivity. }
    now rewrite HR.
Qed.

(** ** The description: [String] *)

Lemma append_assoc_string (a b c : string) : (a ++ b) ++ c = a ++ (b ++ c).
Proof.
  induction a as [|x a IH]; [reflexivity|].
  change (String x ((a ++ b) ++ c) = String x (a ++ (b ++ c))). now f_equal.
Qed.

(** A string without [c], followed by [c], is read back in one way. *)
Lemma lacks_append_inj c (s s' r r' : string) :
  lacks c s = true -> lacks c s' = true ->
  s ++ String c r = s' ++ String c r' -> s = s' /\ r = r'.
Proof.
  revert s'. induction s as [|x s IH]; intros [|x' s'] Hs Hs'; simpl in *.
  - now intros [= ->].
  - intros [= <- _]. now rewrite Ascii.eqb_refl in Hs'.
  - intros [= -> _]. now rewrite Ascii.eqb_refl in Hs.
  - apply andb_true_iff in Hs as [_ Hs]. apply andb_true_iff in Hs' as [_ Hs'].
    intros [= <- H]. destruct (IH s' Hs Hs' H) as [-> ->]. now split.
Qed.

(** The elements of a list as printed, with what follows the list. *)
Lemma Sprint_elements_cons f fields (t : string) :
  urlparse.Sprint_elements (f :: fields) ++ t
  = "{From:" ++ From f ++ " To:" ++ To f ++
    String "}" (match fields with
                | [] => t
                | _ :: _ => " " ++ urlparse.Sprint_elements fields ++ t
                end).
Proof.
  destruct fields as [|g fields];
    cbn [urlparse.Sprint_elements]; unfold urlparse.Sprint_fromTo;
    repeat (rewrite ?append_assoc_string; simpl); reflexivity.
Qed.

Lemma Sprint_elements_inj fields fields' :
  forallb plain_paths fields = true -> forallb plain_paths fields' = true ->
  urlparse.Sprint_elements fields ++ "]" = urlparse.Sprint_elements fields' ++ "]" ->
  fields = fields'.
Proof.
  revert fields'. induction fields as [|f fields IH]; intros [|f' fields'] Hp Hp'.
  - reflexivity.
  - rewrite Sprint_elements_cons. simpl. discriminate.
  - rewrite Sprint_elements_cons. simpl. discriminate.
  - rewrite !Sprint_elements_cons. simpl in Hp, Hp'.
    apply andb_true_iff in Hp as [Hf Hp]. apply andb_true_iff in Hp' as [Hf' Hp'].
    unfold plain_paths in Hf, Hf'. rewrite !andb_true_iff in Hf, Hf'.
    destruct Hf as [[[H1 H2] H3] H4], Hf' as [[[H1' H2'] H3'] H4'].
    simpl. intros [= H].
    apply lacks_append_inj in H as [HF H]; [|assumption..].
    injection H as H. apply lacks_append_inj in H as [HT H]; [|assumption..].
    assert (f = f') by (destruct f, f'; simpl in *; congruence). subst f'.
    f_equal. destruct fields as [|g fields], fields' as [|g' fields'].
    + reflexivity.
    + rewrite Sprint_elements_cons in H. simpl in H. discriminate.
    + rewrite Sprint_elements_cons in H. simpl in H. discriminate.
    + injection H as H. now apply IH.
Qed.

(** X13.  The description tells the mapping lists of two processors
    apart, as long as no [from] and no [to] has a space or a closing
    brace in it: two such processors with the same description have the
    same mappings in the same order. *)
Theorem String_inj (p p' : urlParse) :
  forallb plain_paths (Fields (config p)) = true ->
  forallb plain_paths (Fields (config p')) = true ->
  urlparse.String p = urlparse.String p' ->
  Fields (config p) = Fields (config p').
Proof.
  intros Hp Hp'. unfold urlparse.String, urlparse.Sprint_fields. simpl.
  intros [= H]. now apply Sprint_elements_inj.
Qed.

(** ** What is written: the components *)

Lemma substring_all (s : string) : String.substring 0 (String.length s) s = s.
Proof. induction s as [|c s IH]; simpl; [reflexivity|]. now rewrite IH. Qed.

Lemma substring_empty n m : String.substring n m "" = "".
Proof. destruct n, m; reflexivity. Qed.

(** [s[i+1:]] is [s[i:]] without its first byte. *)
Lemma from_S (s : string) (i : nat) :
  strings.from s (S i)
  = match strings.from s i with
    | EmptyString => EmptyString
    | String _ r => r
    end.
Proof.
  unfold strings.from. revert i. induction s as [|c s IH]; intros i.
  - now rewrite !substring_empty.
  - destruct i as [|i].
    + simpl. rewrite Nat.sub_0_r, substring_all. reflexivity.
    + simpl String.length. rewrite !Nat.sub_succ. apply IH.
Qed.

Lemma Port_digits (u : url.URL) : url.all_digits (url.Port u) = true.
Proof.
  unfold url.Port, url.splitHostPort.
  destruct (strings.LastIndexByte (url.Host u) ":") as [colon|].
  - destruct (url.validOptionalPort (strings.from (url.Host u) colon)) eqn:E.
    + assert (H : url.all_digits (strings.from (url.Host u) (S colon)) = true).
      { rewrite from_S. unfold url.validOptionalPort in E.
        destruct (strings.from (url.Host u) colon); [reflexivity|].
        now apply andb_true_iff in E as [_ E]. }
      now destruct (_ && _).
    + now destruct (_ && _).
  - now destruct (_ && _).
Qed.

Lemma lower_lower c : strings.lower (strings.lower c) = strings.lower c.
Proof.
  destruct c as [[] [] [] [] [] [] [] []]; reflexivity.
Qed.

Lemma ToLower_ToLower s : strings.ToLower (strings.ToLower s) = strings.ToLower s.
Proof. induction s as [|c s IH]; simpl; [reflexivity|]. now rewrite lower_lower, IH. Qed.

(** What [setPath] fills in and what it keeps. *)
Lemma setPath_inr u p u' :
  url.setPath u p = inr u' ->
  url.Scheme u' = url.Scheme u /\ url.Opaque u' = url.Opaque u /\
  (url.RawPath u' = "" \/
   url.unescape (url.RawPath u') url.encodePath = inr (url.Path u')).
Proof.
  unfold url.setPath. destruct (url.unescape p url.encodePath) as [e|path] eqn:E;
    [discriminate|].
  intros [= <-]. simpl. split; [reflexivity|]. split; [reflexivity|].
  destruct (String.eqb p _); [now left|now right].
Qed.

(** The URLs [parse] returns. *)
Lemma parse_inr rawURL viaRequest u :
  url.parse rawURL viaRequest = inr u ->
  strings.ToLower (url.Scheme u) = url.Scheme u /\
  (url.Opaque u <> "" ->
   url.User u = None /\ url.Host u = "" /\ url.Path u = "" /\ url.RawPath u = "") /\
  (url.RawPath u = "" \/
   url.unescape (url.RawPath u) url.encodePath = inr (url.Path u)).
Proof.
  unfold url.parse.
  repeat case_match; try discriminate;
    try (intros [= <-]; simpl; rewrite ?ToLower_ToLower;
         repeat split; try reflexivity; try (now left); tauto);
    intros HsetPath; apply setPath_inr in HsetPath as (Hs & Ho & Hr); simpl in *;
      rewrite Hs, Ho, ?ToLower_ToLower; repeat split; try tauto; try congruence.
Qed.

Lemma setFragment_inr u f u' :
  url.setFragment u f = inr u' ->
  url.Scheme u' = url.Scheme u /\ url.Opaque u' = url.Opaque u /\
  url.User u' = url.User u /\ url.Host u' = url.Host u /\
  url.Path u' = url.Path u /\ url.RawPath u' = url.RawPath u /\
  url.RawQuery u' = url.RawQuery u.
Proof.
  unfold url.setFragment. destruct (url.unescape f url.encodeFragment); [discriminate|].
  intros [= <-]. simpl. tauto.
Qed.

(** The URLs [Parse] returns. *)
Lemma Parse_inr s u :
  url.Parse s = inr u ->
  strings.ToLower (url.Scheme u) = url.Scheme u /\
  (url.Opaque u <> "" ->
   url.User u = None /\ url.Host u = "" /\ url.Path u = "" /\ url.RawPath u = "") /\
  (url.RawPath u = "" \/
   url.unescape (url.RawPath u) url.encodePath = inr (url.Path u)).
Proof.
  unfold url.Parse. destruct (url.split s "#" true) as [rest frag].
  destruct (url.parse rest false) as [err|u0] eqn:E; [discriminate|].
  apply parse_inr in E.
  destruct (String.eqb frag ""); [now intros [= <-]|].
  destruct (url.setFragment u0 frag) as [err|u1] eqn:F; [discriminate|].
  intros [= <-]. apply setFragment_inr in F as (-> & -> & -> & -> & -> & -> & _).
  exact E.
Qed.

(** X14.  What a mapping writes is well formed.  When [parseField] has
    read a string and returned no error, the object at the target is the
    components of a URL whose port is digits only (or empty), whose scheme
    has no upper-case letter, whose host name, port, path and raw path are
    empty when it is opaque, and whose raw path, when it is not empty,
    decodes to its path. *)
Theorem parseField_writes_well_formed
    (p : urlParse) (from to : string) (event event' : beat.Event) (s : string) :
  beat.GetValue event from = inr (VString s) ->
  parseField p from to event = (event', None) ->
  exists u,
    url.Parse s = inr u /\
    beat.GetValue event' (target (mapping from to)) = inr (VMap (components u)) /\
    url.all_digits (url.Port u) = true /\
    strings.ToLower (url.Scheme u) = url.Scheme u /\
    (url.Opaque u <> "" ->
     url.Hostname u = "" /\ url.Port u = "" /\ url.Path u = "" /\ url.RawPath u = "") /\
    (url.RawPath u = "" \/
     url.unescape (url.RawPath u) url.encodePath = inr (url.Path u)).
Proof.
  intros Hget. unfold parseField, target, beat.PutValue, beat.GetValue in *.
  rewrite Hget. simpl.
  destruct (url.Parse s) as [err|u] eqn:EP; [discriminate|].
  destruct (common.Put _ _ _) as [err|m] eqn:E; [discriminate|].
  intros [= <-]. exists u. split; [reflexivity|]. simpl.
  split; [exact (GetValue_Put _ _ _ _ E)|].
  split; [apply Port_digits|].
  destruct (Parse_inr _ _ EP) as (Hs & Ho & Hr).
  split; [exact Hs|]. split; [|exact Hr].
  intros Hop. destruct (Ho Hop) as (_ & Hh & Hp & Hrp).
  unfold url.Hostname, url.Port. rewrite Hh. auto.
Qed.

(** ** Mappings that do not meet *)

(** The error of a mapping is not affected by another mapping that wrote
    where the first neither reads nor writes. *)
Lemma parseField_error_apart p f g event :
  common.overlap (target f) (From g) = false ->
  common.overlap (target f) (target g) = false ->
  snd (parseField p (From g) (To g) (apply_field p event f))
  = snd (parseField p (From g) (To g) event).
Proof.
  intros Hfrom Hto.
  assert (Hget := apply_field_other p f event (From g) Hfrom).
  assert (Hput : forall v,
            common.same_outcome
              (common.Put (beat.Fields event) (target g) v)
              (common.Put (beat.Fields (apply_field p event f)) (target g) v)).
  { intros v. rewrite apply_field_eq. destruct (url_at event f) as [u|].
    - destruct (common.Put (beat.Fields event) (target f) (VMap (components u)))
        as [err|m] eqn:E.
      + unfold common.same_outcome. now destruct (common.Put _ (target g) v).
      + simpl. eapply Put_outcome_apart; eauto.
    - unfold common.same_outcome. now destruct (common.Put _ (target g) v). }
  unfold parseField, beat.PutValue. fold (target g). rewrite Hget.
  destruct (beat.GetValue event (From g)) as [err|[s| | |]]; simpl;
    try (now destruct (_ && _)); try reflexivity.
  destruct (url.Parse s) as [err|u]; [reflexivity|].
  specialize (Hput (VMap (components u))). unfold common.same_outcome in Hput.
  destruct (common.Put (beat.Fields event) _ _),
           (common.Put (beat.Fields (apply_field p event f)) _ _);
    simpl; try contradiction; congruence.
Qed.

(** Two mappings that do not meet can be applied in either order. *)
Lemma apply_field_commute p event f g :
  unrelated f g = true ->
  apply_field p (apply_field p event f) g
  = apply_field p (apply_field p event g) f.
Proof.
  unfold unrelated. rewrite !andb_true_iff, !negb_true_iff.
  intros [[Hfg Hgf] Htt].
  rewrite (apply_field_eq p (apply_field p event f) g),
          (apply_field_eq p (apply_field p event g) f).
  rewrite !url_at_apply_field by assumption.
  rewrite !apply_field_eq.
  destruct (url_at event f) as [uf|], (url_at event g) as [ug|]; try reflexivity.
  - destruct (common.Put (beat.Fields event) (target f) (VMap (components uf)))
      as [ef|mf] eqn:Ef;
    destruct (common.Put (beat.Fields event) (target g) (VMap (components ug)))
      as [eg|mg] eqn:Eg; simpl.
    + now rewrite ?Ef, ?Eg.
    + rewrite ?Eg.
      assert (H := Put_outcome_apart _ _ _ _ (target f) (VMap (components uf)) Eg
                     ltac:(now rewrite overlap_sym)).
      rewrite Ef in H. unfold common.same_outcome in H.
      now destruct (common.Put mg _ _).
    + rewrite ?Ef.
      assert (H := Put_outcome_apart _ _ _ _ (target g) (VMap (components ug)) Ef Htt).
      rewrite Eg in H. unfold common.same_outcome in H.
      now destruct (common.Put mf _ _).
    + destruct (Put_commute _ _ _ _ _ _ _ Ef Eg Htt) as (m12 & E1 & E2).
      now rewrite E1, E2.
Qed.

Lemma unrelated_sym f g : unrelated f g = unrelated g f.
Proof.
  unfold unrelated.
  rewrite (overlap_sym (target f) (target g)).
  now destruct (common.overlap (target f) (From g)),
               (common.overlap (target g) (From f)).
Qed.

Lemma pairwise_unrelated_Permutation fields fields' :
  Permutation fields fields' ->
  pairwise_unrelated fields = true -> pairwise_unrelated fields' = true.
Proof.
  induction 1 as [|x l l' HP IH|x y l|l l' l'' HP1 IH1 HP2 IH2]; simpl.
  - reflexivity.
  - rewrite !andb_true_iff, !forallb_forall. intros [H1 H2]. split; [|auto].
    intros g Hg. apply H1. eapply Permutation_in; [symmetry|]; eauto.
  - rewrite !andb_true_iff. intros [[H1 H2] [H3 H4]].
    rewrite unrelated_sym. tauto.
  - auto.
Qed.

Lemma fold_apply_field_Permutation p fields fields' :
  Permutation fields fields' ->
  pairwise_unrelated fields = true ->
  forall event,
    fold_left (apply_field p) fields event
    = fold_left (apply_field p) fields' event.
Proof.
  induction 1 as [|x l l' HP IH|x y l|l l' l'' HP1 IH1 HP2 IH2]; simpl; intros Hu event.
  - reflexivity.
  - apply andb_true_iff in Hu as [_ Hu]. now apply IH.
  - rewrite !andb_true_iff in Hu. destruct Hu as [[H1 _] _].
    now rewrite (apply_field_commute p event y x).
  - rewrite IH1 by assumption. apply IH2.
    eapply pairwise_unrelated_Permutation; eauto.
Qed.

(** Among mappings that do not meet, each returns the error it returns
    on the event the list started from. *)
Lemma errors_of_unrelated p fields event :
  pairwise_unrelated fields = true ->
  errors_of p fields event
  = flat_map (fun f => errors_of p [f] event) fields.
Proof.
  revert event. induction fields as [|f fields IH]; intros event Hu; [reflexivity|].
  simpl in Hu. apply andb_true_iff in Hu as [Hf Hu].
  change (f :: fields) with ([f] ++ fields)%list at 1.
  rewrite errors_of_app. cbn [flat_map]. f_equal.
  cbn [fold_left]. rewrite IH by assumption.
  rewrite forallb_forall in Hf. clear IH Hu.
  induction fields as [|g fields IHg]; [reflexivity|].
  cbn [flat_map]. rewrite IHg by (intros x Hx; apply Hf; now right).
  f_equal.
  assert (Hfg := Hf g (or_introl eq_refl)). unfold unrelated in Hfg.
  rewrite !andb_true_iff, !negb_true_iff in Hfg. destruct Hfg as [[Hfg _] Htt].
  assert (E := parseField_error_apart p f g event Hfg Htt).
  cbn [errors_of].
  destruct (parseField p (From g) (To g) (apply_field p event f)) as [e1 o1],
           (parseField p (From g) (To g) event) as [e2 o2]. simpl in E. subst o2.
  now destruct o1.
Qed.

Lemma Run_best_effort_eq (txt : error -> string) fields ignore_missing event :
  Run txt (processor fields ignore_missing false) event
  = (fold_left (apply_field (processor fields ignore_missing false)) fields event,
     None,
     map (fun err => txt (ErrRun err))
         (errors_of (processor fields ignore_missing false) fields event)).
Proof. unfold Run. simpl. now rewrite Run_loop_best_effort. Qed.

Lemma apply_field_config p p' event f :
  IgnoreMissing (config p') = IgnoreMissing (config p) ->
  apply_field p' event f = apply_field p event f.
Proof. intros H. unfold apply_field. now rewrite (parseField_config p p'). Qed.

Lemma fold_apply_field_config p p' fields event :
  IgnoreMissing (config p') = IgnoreMissing (config p) ->
  fold_left (apply_field p') fields event = fold_left (apply_field p) fields event.
Proof.
  intros H. revert event. induction fields as [|f fields IH]; intros event; simpl.
  - reflexivity.
  - now rewrite IH, (apply_field_config p p').
Qed.

Lemma errors_of_config p p' fields event :
  IgnoreMissing (config p') = IgnoreMissing (config p) ->
  errors_of p' fields event = errors_of p fields event.
Proof.
  intros H. revert event. induction fields as [|f fields IH]; intros event; simpl.
  - reflexivity.
  - rewrite (parseField_config p p') by exact H.
    destruct (parseField p _ _ event) as [event' [err|]]; now rewrite IH.
Qed.

(** X15.  In best-effort mode the order of mappings that do not meet is
    of no consequence to the event: when no mapping of the list writes
    where another reads or writes, [Run] with the list in any other order
    returns the same event, and logs the same lines in the order the
    mappings then have. *)
Theorem Run_best_effort_Permutation
    (txt : error -> string) (fields fields' : list fromTo) (ignore_missing : bool)
    (event : beat.Event) :
  Permutation fields fields' ->
  pairwise_unrelated fields = true ->
  event_of (Run txt (processor fields' ignore_missing false) event)
  = event_of (Run txt (processor fields ignore_missing false) event) /\
  Permutation (snd (Run txt (processor fields ignore_missing false) event))
              (snd (Run txt (processor fields' ignore_missing false) event)).
Proof.
  intros HP Hu. rewrite !Run_best_effort_eq. unfold event_of. simpl.
  set (p := processor fields ignore_missing false).
  rewrite (fold_apply_field_config p (processor fields' ignore_missing false))
    by reflexivity.
  rewrite (errors_of_config p (processor fields' ignore_missing false))
    by reflexivity.
  split.
  - symmetry. now apply fold_apply_field_Permutation.
  - apply Permutation_map.
    rewrite !errors_of_unrelated
      by (try assumption; eapply pairwise_unrelated_Permutation; eauto).
    now apply Permutation_flat_map.
Qed.

(** X16.  Mappings that do not meet fail on their own account.  In
    best-effort mode, when no mapping of the list writes where another
    reads or writes, the log of [Run] is the logs, one after the other, of
    each mapping run alone on the event [Run] was given. *)
Theorem Run_unrelated_log
    (txt : error -> string) (fields : list fromTo) (ignore_missing : bool)
    (event : beat.Event) :
  pairwise_unrelated fields = true ->
  snd (Run txt (processor fields ignore_missing false) event)
  = flat_map (fun f => snd (Run txt (processor [f] ignore_missing false) event))
             fields.
Proof.
  intros Hu. rewrite Run_best_effort_eq. cbn [snd].
  rewrite errors_of_unrelated by assumption.
  set (p := processor fields ignore_missing false).
  assert (Hp : IgnoreMissing (config p) = ignore_missing) by reflexivity.
  clearbody p. clear Hu.
  induction fields as [|f l IH]; [reflexivity|].
  cbn [flat_map]. rewrite map_app, IH. f_equal.
  rewrite Run_best_effort_eq. cbn [snd].
  now rewrite (errors_of_config p (processor [f] ignore_missing false))
    by (symmetry; exact Hp).
Qed.

(** X17.  In strict mode a list of mappings that do not meet succeeds
    exactly when each of its mappings, run alone on the same event,
    succeeds. *)
Theorem Run_strict_unrelated
    (txt : error -> string) (fields : list fromTo) (ignore_missing : bool)
    (event : beat.Event) :
  pairwise_unrelated fields = true ->
  (error_of (Run txt (processor fields ignore_missing true) event) = None <->
   forall f, In f fields ->
     error_of (Run txt (processor [f] ignore_missing true) event) = None).
Proof.
  intros Hu.
  pose (p := processor fields ignore_missing true).
  assert (Hp : IgnoreMissing (config p) = ignore_missing) by reflexivity.
  assert (HR : forall l,
             error_of (Run txt (processor l ignore_missing true) event) = None
             <-> errors_of p l event = []).
  { intros l. unfold Run, error_of. simpl. rewrite Run_loop_strict by reflexivity.
    rewrite (errors_of_config p (processor l ignore_missing true))
      by (symmetry; exact Hp).
    destruct (errors_of _ l event); simpl; split; congruence. }
  rewrite HR, errors_of_unrelated by assumption.
  clearbody p. clear Hu.
  induction fields as [|f l IH]; cbn [flat_map].
  - split; [intros _ f []|reflexivity].
  - split.
    + intros H. apply app_eq_nil in H as [H1 H2].
      intros g [<-|Hg]; [now apply HR|]. now apply IH.
    + intros H. rewrite (proj2 IH) by (intros g Hg; apply H; now right).
      rewrite app_nil_r. apply HR, H. now left.
Qed.

(** * The further properties at work *)

Lemma parseField_success_request :
  (fst (parseField (processor [mapping "request" "url"] false true)
          "request" "url" event_request) = event_request /\
   IgnoreMissing (config (processor [mapping "request" "url"] false true)) = true /\
   beat.GetValue event_request "request" = inl ErrKeyNotFound) \/
  (exists s u,
     beat.GetValue event_request "request" = inr (VString s) /\
     url.Parse s = inr u /\
     beat.GetValue
       (fst (parseField (processor [mapping "request" "url"] false true)
               "request" "url" event_request))
       (target (mapping "request" "url")) = inr (VMap (components u)) /\
     dom (components u) = component_keys).
Proof.
  refine (parseField_success (processor [mapping "request" "url"] false true)
            "request" "url" event_request _ _).
  vm_compute. reflexivity.
Defined.

(** The mapping from [request] to [url] leaves [request] as it was. *)
Lemma parseField_frame_request :
  beat.GetValue
    (fst (parseField (processor [mapping "request" "url"] false true)
            "request" "url" event_request)) "request"
  = beat.GetValue event_request "request".
Proof.
  refine (proj1 (parseField_frame (processor [mapping "request" "url"] false true)
                   "request" "url" event_request) "request" _).
  vm_compute. reflexivity.
Defined.

Lemma parseField_in_place_request :
  exists event',
    parseField (processor [mapping "request" ""] false true) "request" ""
               event_request = (event', None) /\
    beat.GetValue event' "request" = inr (VMap (components url_request)).
Proof.
  refine (parseField_in_place (processor [mapping "request" ""] false true)
            "request" "" event_request
            "https://example.com:8443/a/b?x=1#frag" url_request _ _ _).
  - left. reflexivity.
  - vm_compute. reflexivity.
  - vm_compute. reflexivity.
Defined.

(** In [mappings_abc] the mapping of [b] is the first to fail, after the
    mapping of [a] has written. *)
Lemma Run_strict_all_or_nothing_abc :
  exists pre f post event_i err,
    Fields (config (processor mappings_abc false true)) = (pre ++ f :: post)%list /\
    succeed_all (processor mappings_abc false true) pre event_abc = Some event_i /\
    parseField (processor mappings_abc false true) (From f) (To f) event_i
    = (event_i, Some err) /\
    succeed_all (processor mappings_abc false true)
      (Fields (config (processor mappings_abc false true))) event_abc = None /\
    Run sample_text (processor mappings_abc false true) event_abc
    = ({| beat.Fields :=
           attach_error_message (beat.Fields event_abc)
             (sample_text (ErrRun err)) |},
       Some err, [sample_text (ErrRun err)]).
Proof.
  destruct (Run_strict_all_or_nothing sample_text
              (processor mappings_abc false true) event_abc eq_refl)
    as [(event' & Hall & _) | Hfail].
  - vm_compute in Hall. discriminate Hall.
  - exact Hfail.
Defined.

Lemma Run_modes_agree_request :
  Run sample_text (processor [mapping "request" "url"] false true) event_request
  = (fst (parseField (processor [mapping "request" "url"] false true)
            "request" "url" event_request), None, []) /\
  Run sample_text (processor [mapping "request" "url"] false false) event_request
  = (fst (parseField (processor [mapping "request" "url"] false true)
            "request" "url" event_request), None, []).
Proof.
  refine (Run_modes_agree sample_text [mapping "request" "url"] false event_request
            _ _).
  vm_compute. reflexivity.
Defined.

(** [b] holds a number, the processor fails on it, and [b] is still
    there. *)
Lemma Run_keeps_top_level_keys_abc :
  is_Some (beat.Fields
             (event_of (Run sample_text (processor mappings_abc false true) event_abc))
           !! "b").
Proof.
  refine (Run_keeps_top_level_keys sample_text (processor mappings_abc false true)
            event_abc "b" _).
  exists (VInt 42). vm_compute. reflexivity.
Defined.

Lemma Run_all_missing_request :
  Run sample_text (processor [mapping "url" ""; mapping "referrer" "ref"] true true)
      event_request
  = (event_request, None, []).
Proof.
  refine (Run_all_missing sample_text
            (processor [mapping "url" ""; mapping "referrer" "ref"] true true)
            event_request _ _).
  - reflexivity.
  - intros f [<- | [<- | []]]; vm_compute; reflexivity.
Defined.

Lemma New_well_formed_minimal :
  well_formed (config (processor [mapping "request" ""] false true)) /\
  forall f, In f (Fields (config (processor [mapping "request" ""] false true))) ->
            target f <> "".
Proof.
  refine (New_well_formed raw_minimal (processor [mapping "request" ""] false true) _).
  left. vm_compute. reflexivity.
Defined.

Lemma New_raw_of_request :
  New (raw_of (config (processor [mapping "request" "url"] true false)))
  = inr (processor [mapping "request" "url"] true false) /\
  urlparse_plugin (raw_of (config (processor [mapping "request" "url"] true false)))
  = inr (processor [mapping "request" "url"] true false).
Proof.
  refine (New_raw_of (config (processor [mapping "request" "url"] true false)) _).
  split.
  - discriminate.
  - intros f [<- | []]. discriminate.
Defined.

Lemma urlparse_plugin_iff_minimal :
  New raw_minimal = inr (processor [mapping "request" ""] false true) /\
  forall k, is_Some (raw_minimal !! k) ->
            In k ["fields"; "ignore_missing"; "fail_on_error"].
Proof.
  refine (proj1 (urlparse_plugin_iff raw_minimal
                   (processor [mapping "request" ""] false true)) _).
  vm_compute. reflexivity.
Defined.

(** The options of a processor are not in its description; its mappings
    are. *)
Lemma String_inj_ab :
  Fields (config (processor [mapping "a" "b"; mapping "c" ""] false true))
  = Fields (config (processor [mapping "a" "b"; mapping "c" ""] true false)).
Proof.
  refine (String_inj (processor [mapping "a" "b"; mapping "c" ""] false true)
            (processor [mapping "a" "b"; mapping "c" ""] true false) _ _ _).
  - reflexivity.
  - reflexivity.
  - reflexivity.
Defined.

Lemma parseField_writes_well_formed_request :
  exists u,
    url.Parse "https://example.com:8443/a/b?x=1#frag" = inr u /\
    beat.GetValue
      (fst (parseField (processor [mapping "request" "url"] false true)
              "request" "url" event_request))
      (target (mapping "request" "url")) = inr (VMap (components u)) /\
    url.all_digits (url.Port u) = true /\
    strings.ToLower (url.Scheme u) = url.Scheme u /\
    (url.Opaque u <> "" ->
     url.Hostname u = "" /\ url.Port u = "" /\ url.Path u = "" /\ url.RawPath u = "") /\
    (url.RawPath u = "" \/
     url.unescape (url.RawPath u) url.encodePath = inr (url.Path u)).
Proof.
  refine (parseField_writes_well_formed
            (processor [mapping "request" "url"] false true)
            "request" "url" event_request _
            "https://example.com:8443/a/b?x=1#frag" _ _).
  - vm_compute. reflexivity.
  - vm_compute. reflexivity.
Defined.

(** [a], [b], [c] to [x], [y], [z], and [b] before [a]. *)
Lemma Run_best_effort_Permutation_abc :
  event_of (Run sample_text
              (processor [mapping "b" "y"; mapping "a" "x"; mapping "c" "z"] false false)
              event_abc)
  = event_of (Run sample_text (processor mappings_abc false false) event_abc) /\
  Permutation
    (snd (Run sample_text (processor mappings_abc false false) event_abc))
    (snd (Run sample_text
            (processor [mapping "b" "y"; mapping "a" "x"; mapping "c" "z"] false false)
            event_abc)).
Proof.
  refine (Run_best_effort_Permutation sample_text mappings_abc
            [mapping "b" "y"; mapping "a" "x"; mapping "c" "z"] false event_abc _ _).
  - apply perm_swap.
  - vm_compute. reflexivity.
Defined.

Lemma Run_unrelated_log_abc :
  snd (Run sample_text (processor mappings_abc false false) event_abc)
  = flat_map
      (fun f => snd (Run sample_text (processor [f] false false) event_abc))
      mappings_abc.
Proof.
  refine (Run_unrelated_log sample_text mappings_abc false event_abc _).
  vm_compute. reflexivity.
Defined.

Lemma Run_strict_unrelated_abc :
  error_of (Run sample_text (processor mappings_abc false true) event_abc) = None <->
  forall f, In f mappings_abc ->
    error_of (Run sample_text (processor [f] false true) event_abc) = None.
Proof.
  refine (Run_strict_unrelated sample_text mappings_abc false event_abc _).
  vm_compute. reflexivity.
Defined.
